(** * Fifteen-Twenty finger-guessing game: the round engine of [main.py],
      the number extractor of [audio_processor.py] and the gesture emitter of
      [gesture_recognizer.py], embedded as Rocq functions.

    Conventions of the embedding.
    - A Python [str] is the list of its Unicode code points ([pystr]);
      literals made of ASCII characters are written [py "..."], Chinese
      characters are named constants ([zh_*]) carrying their code point.
    - Python integers are [Z]; [time.time()] readings are exact rationals
      ([Q], seconds); the rounding of floating point is not modelled.
    - [random.choice] and the wall clock are inputs of the handler that
      reads them (record [Env]); the distribution of the draws is not
      modelled, only the set they are taken from.
    - [QTimer.singleShot] is an output: every handler returns the list of
      timers it armed.
    - The text of a widget carries no game state and is left out, but
      whether the label exists is modelled: [setText] on a label that no
      method creates raises [AttributeError] and ends the handler there.
    - Handlers run one at a time, to completion. *)

From Stdlib Require Import ZArith QArith List Bool Lia Lqa String Ascii.
From Stdlib Require Import DecimalString.
Import ListNotations.

Open Scope Z_scope.

(** ** Python strings *)

Module PyStr.

Definition pystr := list N.

(** An ASCII literal as a Python string. *)
Definition py (s : string) : pystr :=
  map N_of_ascii (list_ascii_of_string s).

Definition eqb (a b : pystr) : bool :=
  if list_eq_dec N.eq_dec a b then true else false.

(** [needle in hay] for strings. *)
Fixpoint startswith (hay needle : pystr) : bool :=
  match needle, hay with
  | [], _ => true
  | _ :: _, [] => false
  | c :: needle', d :: hay' => N.eqb c d && startswith hay' needle'
  end.

Fixpoint contains (needle hay : pystr) : bool :=
  startswith hay needle
  || match hay with
     | [] => false
     | _ :: hay' => contains needle hay'
     end.

(** [s.replace(old, new)] for one-character [old] and [new]. *)
Definition replace (old new : N) (s : pystr) : pystr :=
  map (fun c => if N.eqb c old then new else c) s.

(** [str(n)] for an integer. *)
Definition str (n : Z) : pystr :=
  py (NilZero.string_of_int (Z.to_int n)).

Definition digit_value (c : N) : option Z :=
  if (48 <=? c)%N && (c <=? 57)%N then Some (Z.of_N c - 48) else None.

Fixpoint digits_value (acc : Z) (s : pystr) : option Z :=
  match s with
  | [] => Some acc
  | c :: s' =>
      match digit_value c with
      | Some d => digits_value (10 * acc + d) s'
      | None => None
      end
  end.

(** [int(s)] on a string.  Exact on the non-empty strings of ASCII
    decimal digits, the only ones the program ever converts; every other
    string is answered [None] (for most of them Python raises
    [ValueError]). *)
Definition int (s : pystr) : option Z :=
  match s with
  | [] => None
  | _ => digits_value 0 s
  end.

(** [d.get(k)] on a dict literal, written as its list of items. *)
Fixpoint dict_get {V : Type} (d : list (pystr * V)) (k : pystr) : option V :=
  match d with
  | [] => None
  | (k', v) :: d' => if eqb k k' then Some v else dict_get d' k
  end.

End PyStr.
Import PyStr.

(** ** audio_processor.py: [AudioProcessor.extract_number] *)

Module AudioProcessor.

Definition zh_ling : N := 0x96F6.   (* 零 *)
Definition zh_yi : N := 0x4E00.     (* 一 *)
Definition zh_er : N := 0x4E8C.     (* 二 *)
Definition zh_san : N := 0x4E09.    (* 三 *)
Definition zh_si : N := 0x56DB.     (* 四 *)
Definition zh_wu : N := 0x4E94.     (* 五 *)
Definition zh_liu : N := 0x516D.    (* 六 *)
Definition zh_qi : N := 0x4E03.     (* 七 *)
Definition zh_ba : N := 0x516B.     (* 八 *)
Definition zh_jiu : N := 0x4E5D.    (* 九 *)
Definition zh_shi : N := 0x5341.    (* 十 *)
Definition zh_bai : N := 0x767E.    (* 百 *)
Definition zh_qian : N := 0x5343.   (* 千 *)
Definition zh_wan : N := 0x4E07.    (* 万 *)
Definition zh_liang : N := 0x4E24.  (* 两 *)
Definition ch_0 : N := 48.          (* '0' *)

(** The dict [cn_num], keyed by single characters. *)
Definition cn_num : list (N * Z) :=
  [ (zh_ling, 0); (zh_yi, 1); (zh_er, 2); (zh_san, 3); (zh_si, 4);
    (zh_wu, 5); (zh_liu, 6); (zh_qi, 7); (zh_ba, 8); (zh_jiu, 9);
    (zh_shi, 10); (zh_bai, 100); (zh_qian, 1000); (zh_wan, 10000);
    (48%N, 0); (49%N, 1); (50%N, 2); (51%N, 3); (52%N, 4);
    (53%N, 5); (54%N, 6); (55%N, 7); (56%N, 8); (57%N, 9);
    (zh_liang, 2) ].

Fixpoint cn_num_get (d : list (N * Z)) (c : N) : option Z :=
  match d with
  | [] => None
  | (k, v) :: d' => if N.eqb c k then Some v else cn_num_get d' c
  end.

(** [0 <= num <= 5] *)
Definition in_call_range (num : Z) : bool := (0 <=? num) && (num <=? 5).

(** The [for word in text] loop: a character is returned from only when
    it is a key of [cn_num] whose value passes the range test; in every
    other case the loop goes on to the next character. *)
Fixpoint scan (text : pystr) : option Z :=
  match text with
  | [] => None
  | word :: rest =>
      match cn_num_get cn_num word with
      | Some num => if in_call_range num then Some num else scan rest
      | None => scan rest
      end
  end.

Definition normalize (text : pystr) : pystr :=
  replace zh_liang zh_er (replace zh_ling ch_0 text).

Definition extract_number (text : pystr) : option Z :=
  scan (normalize text).

End AudioProcessor.
Import AudioProcessor.

(** The reading of the extractor in the specification text: the first
    character that is in the digit table decides, whatever follows it. *)
Fixpoint spec_first_match (text : pystr) : option Z :=
  match text with
  | [] => None
  | word :: rest =>
      match cn_num_get cn_num word with
      | Some num => if in_call_range num then Some num else None
      | None => spec_first_match rest
      end
  end.

Definition spec_Extract (text : pystr) : option Z :=
  spec_first_match (normalize text).

(** ** main.py: the game window *)

Module Game.

(** [class GameState]: four string constants. *)
Inductive GameState := WAITING | READY | PLAYING | FINISHED.

Definition GameState_eqb (a b : GameState) : bool :=
  match a, b with
  | WAITING, WAITING | READY, READY
  | PLAYING, PLAYING | FINISHED, FINISHED => true
  | _, _ => false
  end.

(** The three values of the local [outcome] of [process_round]. *)
Inductive Outcome :=
| PlayerWin     (* "胜利！" *)
| ComputerWin   (* "失败..." *)
| Draw.         (* "平局" *)

(** The fields that [process_round] formats into one line of
    [round_records]. *)
Record RoundRecord := {
  rec_player_gesture : pystr;
  rec_player_call : Z;
  rec_computer_gesture : pystr;
  rec_computer_call : Z;
  rec_total : Z;
  rec_outcome : Outcome
}.

(** The slots a single-shot timer is connected to. *)
Inductive Slot :=
| slot_start_round
| slot_auto_process_round
| slot_process_round
| slot_end_game.

(** [QTimer.singleShot(msec, slot)] *)
Record Timer := { msec : Z; slot : Slot }.

(** The game state set up by [init_game].  [current_round],
    [player_number] and [computer_number] are written there and never
    read again; they are left out. *)
Record GameWindow := {
  state : GameState;
  score_player : Z;
  score_computer : Z;
  max_rounds : Z;
  reaction_times : list Q;
  round_start_time : option Q;
  player_gesture : option pystr;
  player_call : option Z;
  computer_gesture : option pystr;
  computer_call : option Z;
  valid_rounds : Z;
  round_records : list RoundRecord;
  score_draws : Z;
  round_processed : bool
}.

Definition init_game : GameWindow := {|
  state := WAITING;
  score_player := 0;
  score_computer := 0;
  max_rounds := 5;
  reaction_times := [];
  round_start_time := None;
  player_gesture := None;
  player_call := None;
  computer_gesture := None;
  computer_call := None;
  valid_rounds := 0;
  round_records := [];
  score_draws := 0;
  round_processed := false
|}.

(** What a handler reads from outside while it runs: the two clock
    readings of [process_round], the four [random.choice] draws, and the
    button pressed in the report dialog of [end_game]. *)
Record Env := {
  now : Q;
  now_reaction : Q;
  pick_player_gesture : nat;
  pick_player_call : nat;
  pick_computer_gesture : nat;
  pick_computer_call : nat;
  continue_clicked : bool
}.

(** How a handler ends: normally, with the timers it armed; by closing
    the window ([self.close()]); or by an exception, with the state as
    it was when the exception was raised. *)
Inductive Result :=
| Done (s : GameWindow) (armed : list Timer)
| Closed (s : GameWindow)
| Raised (s : GameWindow).

Definition st (r : Result) : GameWindow :=
  match r with Done s _ | Closed s | Raised s => s end.

Definition armed_by (r : Result) : list Timer :=
  match r with Done _ l => l | _ => [] end.

(** [random.choice(seq)]: some element of a non-empty sequence. *)
Definition choice {A : Type} (d : A) (seq : list A) (k : nat) : A :=
  nth (k mod List.length seq) seq d.

(** [int(x)] on a float: truncation towards zero. *)
Definition trunc (x : Q) : Z := Z.quot (Qnum x) (Zpos (Qden x)).

(** [l[-3:]] *)
Definition last3 {A : Type} (l : list A) : list A :=
  skipn (List.length l - 3) l.

(** The two list literals handed to [random.choice], for the player's
    missing inputs in [auto_process_round] and for the computer in
    [process_round]: [["0", "5"]] and [[15, 20]]. *)
Definition gesture_choices : list pystr := [py "0"; py "5"].
Definition call_choices : list Z := [15; 20].

(** The [if / elif / else] of [process_round] on the two calls and the
    total. *)
Definition judge (player_call computer_call total : Z) : Outcome :=
  if (player_call =? total) && negb (player_call =? computer_call)
  then PlayerWin
  else if (computer_call =? total) && negb (player_call =? computer_call)
  then ComputerWin
  else Draw.

(** The labels the handlers write to. *)
Inductive Label :=
| status_label
| player_score_label
| computer_score_label
| draw_score_label
| record_label
| round_label
| player_number_label
| computer_number_label
| total_label
| gesture_label
| voice_label.

(** The labels that [init_ui] and [add_right_side_components] create.
    The other six are only ever read: nothing in the class assigns
    them. *)
Definition created (l : Label) : bool :=
  match l with
  | status_label | player_score_label | computer_score_label
  | draw_score_label | record_label => true
  | round_label | player_number_label | computer_number_label
  | total_label | gesture_label | voice_label => false
  end.

(** [self.<label>.setText(...)]: the attribute lookup raises
    [AttributeError] when the label was never created. *)
Definition setText (l : Label) (s : GameWindow) : Result :=
  if created l then Done s [] else Raised s.

(** Sequencing inside a handler: what follows runs only when what came
    before ended normally. *)
Definition andthen (r : Result) (k : GameWindow -> Result) : Result :=
  match r with
  | Done s armed =>
      match k s with
      | Done s' armed' => Done s' (armed ++ armed')
      | other => other
      end
  | other => other
  end.

(** [update_ui]: the labels it writes, in order; the two branches of each
    [if] write the same label, and [record_label] is guarded by
    [hasattr]. *)
Definition update_ui (s : GameWindow) : Result :=
  andthen (setText player_score_label s) (fun s =>
  andthen (setText computer_score_label s) (fun s =>
  andthen (setText round_label s) (fun s =>
  andthen (setText player_number_label s) (fun s =>
  andthen (setText computer_number_label s) (fun s =>
  andthen (setText total_label s) (fun s =>
  if created record_label then setText record_label s else Done s [])))))).

Definition start_game (s : GameWindow) : Result :=
  Done {|
    state := PLAYING;
    score_player := 0;
    score_computer := 0;
    max_rounds := max_rounds s;
    reaction_times := [];
    round_start_time := round_start_time s;
    player_gesture := player_gesture s;
    player_call := player_call s;
    computer_gesture := computer_gesture s;
    computer_call := computer_call s;
    valid_rounds := 0;
    round_records := [];
    score_draws := 0;
    round_processed := round_processed s
  |} [ {| msec := 3000; slot := slot_start_round |} ].

(** The assignments at the head of [start_round]. *)
Definition open_round (e : Env) (s : GameWindow) : GameWindow := {|
  state := state s;
  score_player := score_player s;
  score_computer := score_computer s;
  max_rounds := max_rounds s;
  reaction_times := reaction_times s;
  round_start_time := Some (now e);
  player_gesture := None;
  player_call := None;
  computer_gesture := None;
  computer_call := None;
  valid_rounds := valid_rounds s;
  round_records := round_records s;
  score_draws := score_draws s;
  round_processed := false
|}.

Definition start_round (e : Env) (s : GameWindow) : Result :=
  andthen (setText status_label (open_round e s)) (fun s1 =>
  andthen (update_ui s1) (fun s2 =>
  Done s2 [ {| msec := 15000; slot := slot_auto_process_round |} ])).

(** The writes of [process_round] between the stillness test and the
    conversion of the gestures. *)
Definition mark_processed (e : Env) (s : GameWindow) : GameWindow := {|
  state := state s;
  score_player := score_player s;
  score_computer := score_computer s;
  max_rounds := max_rounds s;
  reaction_times := reaction_times s;
  round_start_time := round_start_time s;
  player_gesture := player_gesture s;
  player_call := player_call s;
  computer_gesture :=
    Some (choice (py "0") gesture_choices (pick_computer_gesture e));
  computer_call := Some (choice 15 call_choices (pick_computer_call e));
  valid_rounds := valid_rounds s;
  round_records := round_records s;
  score_draws := score_draws s;
  round_processed := true
|}.

(** [if self.round_start_time:] is false for [None] and for [0.0]. *)
Definition truthy (t : option Q) : bool :=
  match t with
  | Some x => negb (Qeq_bool x 0)
  | None => false
  end.

(** The state after the scoring of [process_round]: counter, reaction
    time, [valid_rounds] and record. *)
Definition scored (e : Env) (start : Q) (pg : pystr) (pc : Z)
    (cg : pystr) (cc : Z) (total : Z) (s : GameWindow) : GameWindow :=
  let outcome := judge pc cc total in
  let record := {|
    rec_player_gesture := pg;
    rec_player_call := pc;
    rec_computer_gesture := cg;
    rec_computer_call := cc;
    rec_total := total;
    rec_outcome := outcome
  |} in
  {|
    state := state s;
    score_player :=
      match outcome with
      | PlayerWin => score_player s + 1
      | _ => score_player s
      end;
    score_computer :=
      match outcome with
      | ComputerWin => score_computer s + 1
      | _ => score_computer s
      end;
    max_rounds := max_rounds s;
    reaction_times :=
      if truthy (round_start_time s)
      then reaction_times s ++ [(now_reaction e - start)%Q]
      else reaction_times s;
    round_start_time := round_start_time s;
    player_gesture := player_gesture s;
    player_call := player_call s;
    computer_gesture := computer_gesture s;
    computer_call := computer_call s;
    valid_rounds :=
      match outcome with
      | Draw => valid_rounds s
      | _ => valid_rounds s + 1
      end;
    round_records := last3 (round_records s ++ [record]);
    score_draws :=
      match outcome with
      | Draw => score_draws s + 1
      | _ => score_draws s
      end;
    round_processed := round_processed s
  |}.

(** The rest of [process_round]: the scoring, then the status label and
    [update_ui(total)], then the timer of the pause. *)
Definition settle (e : Env) (start : Q) (pg : pystr) (pc : Z)
    (cg : pystr) (cc : Z) (total : Z) (s : GameWindow) : Result :=
  andthen (setText status_label (scored e start pg pc cg cc total s))
    (fun s1 =>
  andthen (update_ui s1) (fun s2 =>
  Done s2 [ {| msec := 2000;
               slot := if max_rounds s2 <=? valid_rounds s2
                       then slot_end_game else slot_start_round |} ])).

Definition process_round (e : Env) (s : GameWindow) : Result :=
  match player_gesture s, player_call s with
  | Some pg, Some pc =>
      match round_start_time s with
      | None => Raised s      (* float - None: TypeError *)
      | Some start =>
          let elapsed := (now e - start)%Q in
          if Qlt_le_dec elapsed 1 then
            let remaining := trunc ((1 - elapsed) * 1000)%Q in
            Done s [ {| msec := remaining; slot := slot_process_round |} ]
          else
            let s1 := mark_processed e s in
            let cg := choice (py "0") gesture_choices
                        (pick_computer_gesture e) in
            let cc := choice 15 call_choices (pick_computer_call e) in
            match int pg, int cg with
            | Some player_value, Some computer_value =>
                settle e start pg pc cg cc
                  (player_value + computer_value) s1
            | _, _ => Raised s1   (* int(g): ValueError *)
            end
      end
  | _, _ => Done s []
  end.

Definition set_player_gesture (g : pystr) (s : GameWindow) : GameWindow := {|
  state := state s;
  score_player := score_player s;
  score_computer := score_computer s;
  max_rounds := max_rounds s;
  reaction_times := reaction_times s;
  round_start_time := round_start_time s;
  player_gesture := Some g;
  player_call := player_call s;
  computer_gesture := computer_gesture s;
  computer_call := computer_call s;
  valid_rounds := valid_rounds s;
  round_records := round_records s;
  score_draws := score_draws s;
  round_processed := round_processed s
|}.

Definition set_player_call (c : Z) (s : GameWindow) : GameWindow := {|
  state := state s;
  score_player := score_player s;
  score_computer := score_computer s;
  max_rounds := max_rounds s;
  reaction_times := reaction_times s;
  round_start_time := round_start_time s;
  player_gesture := player_gesture s;
  player_call := Some c;
  computer_gesture := computer_gesture s;
  computer_call := computer_call s;
  valid_rounds := valid_rounds s;
  round_records := round_records s;
  score_draws := score_draws s;
  round_processed := round_processed s
|}.

Definition set_state (g : GameState) (s : GameWindow) : GameWindow := {|
  state := g;
  score_player := score_player s;
  score_computer := score_computer s;
  max_rounds := max_rounds s;
  reaction_times := reaction_times s;
  round_start_time := round_start_time s;
  player_gesture := player_gesture s;
  player_call := player_call s;
  computer_gesture := computer_gesture s;
  computer_call := computer_call s;
  valid_rounds := valid_rounds s;
  round_records := round_records s;
  score_draws := score_draws s;
  round_processed := round_processed s
|}.

(** The two [if ... is None] fillings of [auto_process_round]. *)
Definition auto_fill (e : Env) (s : GameWindow) : GameWindow :=
  let s1 :=
    match player_gesture s with
    | None =>
        set_player_gesture
          (choice (py "0") gesture_choices (pick_player_gesture e)) s
    | Some _ => s
    end in
  match player_call s1 with
  | None => set_player_call (choice 15 call_choices (pick_player_call e)) s1
  | Some _ => s1
  end.

Definition auto_process_round (e : Env) (s : GameWindow) : Result :=
  if negb (GameState_eqb (state s) PLAYING) || round_processed s then
    Done s []
  else
    process_round e (auto_fill e s).

(** [end_game]: the report dialog is modal; [continue_clicked] is the
    button it returns with. *)
Definition end_game (e : Env) (s : GameWindow) : Result :=
  let s1 := set_state FINISHED s in
  if continue_clicked e then start_game s1 else Closed s1.

Definition exit_game (s : GameWindow) : Result := Closed s.

Definition show_rules (s : GameWindow) : Result := Done s [].

(** The dict [mapping] of [on_gesture_detected]. *)
Definition mapping : list (pystr * pystr) :=
  [ (py "Fist", py "0"); (py "Palm", py "5") ].

(** [on_gesture_detected]; the landmark argument only feeds the 3D text
    panel. *)
Definition on_gesture_detected (e : Env) (gesture : pystr)
    (s : GameWindow) : Result :=
  if GameState_eqb (state s) PLAYING then
    match dict_get mapping gesture with
    | None => Done s []
    | Some new_gesture =>
        andthen (setText gesture_label s) (fun s0 =>
          let s1 := set_player_gesture new_gesture s0 in
          match player_call s1 with
          | Some _ => process_round e s1
          | None => Done s1 []
          end)
    end
  else Done s [].

Definition zh_kaishi : pystr := [0x5F00; 0x59CB]%N.               (* 开始 *)
Definition zh_tuichu_youxi : pystr :=
  [0x9000; 0x51FA; 0x6E38; 0x620F]%N.                             (* 退出游戏 *)

Definition on_voice_input (e : Env) (text : pystr)
    (s : GameWindow) : Result :=
  if GameState_eqb (state s) WAITING
     && (contains zh_kaishi text || contains (py "15 15") text)
  then start_game s
  else if contains zh_tuichu_youxi text then exit_game s
  else
    andthen (setText voice_label s) (fun s0 =>
      match extract_number text with
      | Some number =>
          let s1 := set_player_call number s0 in
          match player_gesture s1 with
          | Some _ => process_round e s1
          | None => Done s1 []
          end
      | None => Done s0 []
      end).

(** Everything the window reacts to: the three buttons, a timer that
    fires, and the two signal sources. *)
Inductive Event :=
| StartClicked
| ExitClicked
| RulesClicked
| TimerFired (f : Slot)
| GestureDetected (gesture : pystr)
| VoiceInput (text : pystr).

Definition handle (e : Env) (ev : Event) (s : GameWindow) : Result :=
  match ev with
  | StartClicked => start_game s
  | ExitClicked => exit_game s
  | RulesClicked => show_rules s
  | TimerFired slot_start_round => start_round e s
  | TimerFired slot_auto_process_round => auto_process_round e s
  | TimerFired slot_process_round => process_round e s
  | TimerFired slot_end_game => end_game e s
  | GestureDetected g => on_gesture_detected e g s
  | VoiceInput text => on_voice_input e text s
  end.

(** The states the window can be in: [init_game], then any handler on any
    event, at any moment and with any draws. *)
Inductive reachable : GameWindow -> Prop :=
| reach_init : reachable init_game
| reach_step : forall s e ev,
    reachable s -> reachable (st (handle e ev s)).

(** How many rounds have been scored since the counters were last reset. *)
Definition rounds_scored (s : GameWindow) : Z :=
  score_player s + score_computer s + score_draws s.

End Game.
Import Game.

(** ** gesture_recognizer.py: what [process_frame] hands to the camera
    thread *)

Module GestureRecognizer.

(** One entry of a MediaPipe classification list. *)
Record Category := { category_name : pystr; score : Q }.

(** The fields of the recognizer's result that [process_frame] reads.  A
    hand's landmarks are its points [(x, y, z)]. *)
Record RecognitionResult := {
  hand_landmarks : list (list (Q * Q * Q));
  handedness : list (list Category);
  gestures : list (list Category)
}.

Definition GESTURE_CONFIDENCE_THRESHOLD : Q := 0.5.

Definition GESTURE_NAME_MAPPING : list (pystr * pystr) :=
  [ (py "Closed_Fist", py "0"); (py "Open_Palm", py "5") ].

Definition nonempty {A : Type} (l : list A) : bool :=
  match l with [] => false | _ :: _ => true end.

(** The loop over [enumerate(zip(hand_landmarks, handedness))], threading
    [detected_numbers].  [None] is an exception: [handedness[0]] or
    [gestures[idx][0]] on an empty list. *)
Fixpoint detect (gestures : list (list Category)) (idx : nat)
    (hands : list (list (Q * Q * Q) * list Category))
    (detected_numbers : list Z) : option (list Z) :=
  match hands with
  | [] => Some detected_numbers
  | (_, []) :: _ => None
  | (_, _ :: _) :: rest =>
      if nonempty gestures && (idx <? List.length gestures)%nat then
        match nth_error gestures idx with
        | Some (top :: _) =>
            if Qle_bool GESTURE_CONFIDENCE_THRESHOLD (score top) then
              match dict_get GESTURE_NAME_MAPPING (category_name top) with
              | Some gesture =>
                  if nonempty gesture then
                    match int gesture with
                    | Some n =>
                        detect gestures (S idx) rest (detected_numbers ++ [n])
                    | None => None
                    end
                  else detect gestures (S idx) rest detected_numbers
              | None => detect gestures (S idx) rest detected_numbers
              end
            else detect gestures (S idx) rest detected_numbers
        | _ => None
        end
      else detect gestures (S idx) rest detected_numbers
  end.

Definition sum (l : list Z) : Z := fold_right Z.add 0 l.

(** First component of the triple [process_frame] returns; the drawing on
    the frame is left out.  The outer [None] is an exception. *)
Definition process_frame (r : RecognitionResult) : option (option pystr) :=
  if nonempty (hand_landmarks r) then
    match detect (gestures r) 0
            (combine (hand_landmarks r) (handedness r)) [] with
    | Some detected_numbers =>
        Some (if nonempty detected_numbers
              then Some (str (sum detected_numbers)) else None)
    | None => None
    end
  else Some None.

(** [CameraThread.run]: the gesture is emitted when it is not [None]; an
    exception in the frame is caught and emits no gesture. *)
Definition emitted (r : RecognitionResult) : option pystr :=
  match process_frame r with
  | Some (Some gesture) => Some gesture
  | _ => None
  end.

End GestureRecognizer.
Import GestureRecognizer.

(** ** The Qt event loop around the window *)

Module Loop.

(** A single-shot timer waiting to fire.  [armed_in] is bookkeeping of
    this model only: the number of the round (count of [start_round] runs)
    during which the timer was armed.  The program keeps no such tag. *)
Record Pending := { due : Q; target : Slot; armed_in : nat }.

Record World := {
  window : GameWindow;
  clock : Q;
  pending : list Pending;
  round_no : nat;
  running : bool
}.

Definition init_world : World := {|
  window := init_game;
  clock := 0;
  pending := [];
  round_no := 0;
  running := true
|}.

(** What the loop dispatches next: the [i]-th waiting timer, or a signal
    from a button, the camera thread or the audio processor. *)
Inductive Trigger :=
| Fire (i : nat)
| Signal (ev : Event).

Fixpoint drop {A : Type} (i : nat) (l : list A) : list A :=
  match i, l with
  | _, [] => []
  | O, _ :: l' => l'
  | S i', x :: l' => x :: drop i' l'
  end.

Definition arm (t : Q) (n : nat) (tm : Timer) : Pending :=
  {| due := (t + inject_Z (msec tm) / 1000)%Q;
     target := slot tm;
     armed_in := n |}.

Definition dispatch (e : Env) (ev : Event) (rest : list Pending)
    (w : World) : World :=
  let r := handle e ev (window w) in
  let n := match ev with
           | TimerFired slot_start_round => S (round_no w)
           | _ => round_no w
           end in
  {| window := st r;
     clock := now e;
     pending := rest ++ map (arm (now e) n) (armed_by r);
     round_no := n;
     running := match r with Closed _ => false | _ => true end |}.

(** One dispatch.  Time does not run backwards, a timer does not fire
    before it is due, and a closed window receives nothing.  After an
    exception in a handler the loop is taken to go on; a process that
    ends there instead has the runs up to that point. *)
Definition exec (e : Env) (tr : Trigger) (w : World) : option World :=
  if running w && Qle_bool (clock w) (now e)
     && Qle_bool (now e) (now_reaction e)
  then
    match tr with
    | Fire i =>
        match nth_error (pending w) i with
        | Some p =>
            if Qle_bool (due p) (now e)
            then Some (dispatch e (TimerFired (target p))
                         (drop i (pending w)) w)
            else None
        | None => None
        end
    | Signal (TimerFired _) => None
    | Signal ev => Some (dispatch e ev (pending w) w)
    end
  else None.

Fixpoint run (trace : list (Env * Trigger)) (w : World) : option World :=
  match trace with
  | [] => Some w
  | (e, tr) :: trace' =>
      match exec e tr w with
      | Some w' => run trace' w'
      | None => None
      end
  end.

(** An environment at time [t] whose draws all pick the first choice. *)
Definition at_time (t : Q) : Env := {|
  now := t;
  now_reaction := t;
  pick_player_gesture := 0;
  pick_player_call := 0;
  pick_computer_gesture := 0;
  pick_computer_call := 0;
  continue_clicked := false
|}.

End Loop.
Import Loop.

(** ** Predicates used by the statements *)

(** The value the extractor accepts for one character: its [cn_num] entry
    when that lies in the call range. *)
Definition accepted_value (c : N) : option Z :=
  match cn_num_get cn_num c with
  | Some num => if in_call_range num then Some num else None
  | None => None
  end.

(** [process_round] passes both of its guards: the two inputs are there
    and one second has gone by since the round started. *)
Definition due_now (e : Env) (s : GameWindow) : bool :=
  match player_gesture s, player_call s, round_start_time s with
  | Some _, Some _, Some start =>
      if Qlt_le_dec (now e - start) 1 then false else true
  | _, _, _ => false
  end.

Definition gesture_ok (g : option pystr) : Prop :=
  g = None \/ g = Some (py "0") \/ g = Some (py "5").

Definition record_ok (r : RoundRecord) : Prop :=
  rec_outcome r <> ComputerWin
  /\ In (rec_computer_call r) [15; 20]
  /\ In (rec_total r) [0; 5; 10].

(** What holds of the window in every reachable state. *)
Record Inv (s : GameWindow) : Prop := {
  inv_max : max_rounds s = 5;
  inv_computer : score_computer s = 0;
  inv_valid : valid_rounds s = score_player s + score_computer s;
  inv_player : 0 <= score_player s;
  inv_draws : 0 <= score_draws s;
  inv_gesture : gesture_ok (player_gesture s);
  inv_records : Forall record_ok (round_records s)
}.


(** The event loop has not come anywhere near a settled round: no input
    is stored, nothing is scored or on record, the session is not
    finished, and every waiting timer is one to [start_round]. *)
Definition never_played (w : World) : Prop :=
  player_gesture (window w) = None
  /\ player_call (window w) = None
  /\ rounds_scored (window w) = 0
  /\ valid_rounds (window w) = 0
  /\ round_records (window w) = []
  /\ state (window w) <> FINISHED
  /\ Forall (fun p => target p = slot_start_round) (pending w).

(** ** The specification's wording, for comparison *)

(** Timeout filling as the specification words it: a call filled in by
    the timeout is a value that some utterance would have delivered. *)
Definition spec_fill_from_live_domain : Prop :=
  forall e s c,
    state s = PLAYING -> round_processed s = false ->
    player_call s = None ->
    player_call (st (auto_process_round e s)) = Some c ->
    exists text, extract_number text = Some c.


(** ** Sample runs *)

(** The window after the start button and the first [start_round], at
    second 3: the round is open, no input is stored. *)
Definition sample_open : GameWindow :=
  st (handle (at_time 3) (TimerFired slot_start_round)
        (st (handle (at_time 0) StartClicked init_game))).

(** The same round after [auto_process_round] at second 3.5: both inputs
    are filled in, and the round is not yet settled, the second not being
    over. *)
Definition sample_round : GameWindow :=
  st (handle (at_time 3.5) (TimerFired slot_auto_process_round)
        sample_open).

(** The start button at second 0 and the timer it arms, firing at
    second 3. *)
Definition trace_first_round : list (Env * Trigger) :=
  [ (at_time 0, Signal StartClicked);
    (at_time 3, Fire 0) ].





Definition two_palms : RecognitionResult := {|
  hand_landmarks := [ []; [] ];
  handedness := [ [ {| category_name := py "Right"; score := 1 |} ];
                  [ {| category_name := py "Left"; score := 1 |} ] ];
  gestures := [ [ {| category_name := py "Open_Palm"; score := 1 |} ];
                [ {| category_name := py "Open_Palm"; score := 1 |} ] ]
|}.

(** ** main.py: [CameraThread.initialize_camera] *)

Module CameraThread.

(** The two counters of the thread that the retry loop reads and writes.
    [opens] is bookkeeping of this model only: how many times
    [cv2.VideoCapture(0)] has been called so far; it numbers the attempts
    so that the outcome of each can be given from outside. *)
Record Camera := {
  retry_count : Z;
  max_retries : Z;
  opens : nat
}.

(** [__init__] *)
Definition init_camera : Camera :=
  {| retry_count := 0; max_retries := 3; opens := 0 |}.

(** The [while self.retry_count < self.max_retries] loop.  [works n] says
    whether the [n]-th attempt to open and configure the camera goes
    through without an exception.  The result is [True] or [False]
    ([False] goes with the [error_occurred] signal), with the counters as
    the loop leaves them; [None] is fuel run out. *)
Fixpoint retry_loop (fuel : nat) (works : nat -> bool) (c : Camera)
    : option (bool * Camera) :=
  if retry_count c <? max_retries c then
    match fuel with
    | O => None
    | S fuel' =>
        if works (opens c) then
          Some (true, {| retry_count := retry_count c;
                         max_retries := max_retries c;
                         opens := S (opens c) |})
        else
          retry_loop fuel' works
            {| retry_count := retry_count c + 1;
               max_retries := max_retries c;
               opens := S (opens c) |}
    end
  else Some (false, c).

Definition initialize_camera (works : nat -> bool) (c : Camera)
    : option (bool * Camera) :=
  retry_loop (Z.to_nat (max_retries c - retry_count c)) works c.

End CameraThread.

(** ** audio_processor.py: the loop of [process_audio] *)

Module AudioLoop.

(** The characters [str.strip()] removes. *)
Definition whitespace : list N :=
  [ 0x9; 0xA; 0xB; 0xC; 0xD; 0x1C; 0x1D; 0x1E; 0x1F; 0x20; 0x85; 0xA0;
    0x1680; 0x2000; 0x2001; 0x2002; 0x2003; 0x2004; 0x2005; 0x2006;
    0x2007; 0x2008; 0x2009; 0x200A; 0x2028; 0x2029; 0x202F; 0x205F;
    0x3000 ]%N.

Definition isspace (c : N) : bool := existsb (N.eqb c) whitespace.

Fixpoint lstrip (s : pystr) : pystr :=
  match s with
  | [] => []
  | c :: s' => if isspace c then lstrip s' else s
  end.

Definition strip (s : pystr) : pystr := rev (lstrip (rev (lstrip s))).

(** What one turn of the loop finds: the [None] put by [stop], an empty
    queue after the half second, or a block of audio, given here by what
    the recogniser makes of it: [Some raw] when [res[0]['text']] is
    [raw], [None] when the result is empty or [generate] raises. *)
Inductive QueueItem :=
| Sentinel
| Empty
| Audio (res : option pystr).

(** The loop over the items taken from the queue, threading
    [self.last_text]; the result lists the texts the callback is called
    with, in order, and the last value of [last_text]. *)
Fixpoint process_audio (items : list QueueItem) (last_text : pystr)
    : list pystr * pystr :=
  match items with
  | [] => ([], last_text)
  | Sentinel :: _ => ([], last_text)
  | Empty :: rest => process_audio rest last_text
  | Audio None :: rest => process_audio rest last_text
  | Audio (Some raw) :: rest =>
      if nonempty raw then
        let text := strip raw in
        if negb (PyStr.eqb text last_text) && (0 <? Z.of_nat (List.length text))
        then
          let (calls, final) := process_audio rest text in
          (text :: calls, final)
        else process_audio rest last_text
      else process_audio rest last_text
  end.

End AudioLoop.

(** ** hand_gesture.py: filtering and naming of a recognised gesture *)

Module HandGesture.

Definition GESTURE_CONFIDENCE_THRESHOLD : list (pystr * Q) :=
  [ (py "Closed_Fist", 0.1); (py "Open_Palm", 0.1);
    (py "Pointing_Up", 0.5); (py "Thumb_Down", 0.5);
    (py "Thumb_Up", 0.5); (py "Victory", 0.5); (py "ILoveYou", 0.5) ]%Q.

Definition GESTURE_NAME_MAPPING : list (pystr * pystr) :=
  [ (py "Closed_Fist", py "Fist"); (py "Open_Palm", py "Palm");
    (py "Pointing_Up", py "Point Up"); (py "Thumb_Down", py "Thumb Down");
    (py "Thumb_Up", py "Thumb Up"); (py "Victory", py "Victory");
    (py "ILoveYou", py "Love"); (py "None", py "Unknown") ].

Definition filter_gesture (gesture : pystr) (score : Q) : pystr :=
  match dict_get GESTURE_CONFIDENCE_THRESHOLD gesture with
  | Some threshold =>
      if Qlt_le_dec score threshold then py "None" else gesture
  | None => gesture
  end.

(** [GESTURE_NAME_MAPPING.get(filtered_gesture, filtered_gesture)] on the
    filtered category: the name drawn on the picture. *)
Definition display_gesture (gesture_category : pystr) (gesture_score : Q)
    : pystr :=
  let filtered_gesture := filter_gesture gesture_category gesture_score in
  match dict_get GESTURE_NAME_MAPPING filtered_gesture with
  | Some name => name
  | None => filtered_gesture
  end.

End HandGesture.

(** ** main.py: the report of [end_game] *)




(** ** Further predicates and sample states *)

(** No two neighbours in the list are equal. *)
Fixpoint no_repeat (l : list pystr) : Prop :=
  match l with
  | a :: ((b :: _) as rest) => a <> b /\ no_repeat rest
  | _ => True
  end.

(** The top gesture of a hand is one [process_frame] counts: confident
    enough and named in [GESTURE_NAME_MAPPING]. *)
Definition counted (g : list Category) : bool :=
  match g with
  | top :: _ =>
      Qle_bool GestureRecognizer.GESTURE_CONFIDENCE_THRESHOLD (score top)
      && match dict_get GestureRecognizer.GESTURE_NAME_MAPPING
                 (category_name top) with
         | Some _ => true
         | None => false
         end
  | [] => false
  end.


(** The part of the window that keeps the score: counters, records and
    reaction times. *)
Definition ledger (s : GameWindow)
    : Z * Z * Z * Z * Z * list RoundRecord * list Q :=
  (score_player s, score_computer s, score_draws s, valid_rounds s,
   max_rounds s, round_records s, reaction_times s).

(** [needle] occurs in [text]. *)
Definition occurs_in (needle text : pystr) : Prop :=
  exists pre post, text = pre ++ needle ++ post.

(** The characters that count as a call, with their values: 零 一 二 三 四
    五, the digits 0 to 5, and 两. *)
Definition call_characters : list (N * Z) :=
  [ (zh_ling, 0); (zh_yi, 1); (zh_er, 2); (zh_san, 3); (zh_si, 4);
    (zh_wu, 5); (48%N, 0); (49%N, 1); (50%N, 2); (51%N, 3); (52%N, 4);
    (53%N, 5); (zh_liang, 2) ].




(** ** Lemmas on the string model *)

Lemma pystr_eqb_eq a b : PyStr.eqb a b = true <-> a = b.
Proof.
  unfold PyStr.eqb. destruct (list_eq_dec N.eq_dec a b); split; congruence.
Qed.

Lemma pystr_eqb_neq a b : a <> b -> PyStr.eqb a b = false.
Proof.
  intros H. unfold PyStr.eqb.
  destruct (list_eq_dec N.eq_dec a b); [contradiction | reflexivity].
Qed.

Lemma choice_pair {A : Type} (d a b : A) k :
  choice d [a; b] k = a \/ choice d [a; b] k = b.
Proof.
  unfold choice. cbn [List.length].
  assert (H : (k mod 2 < 2)%nat) by (apply Nat.mod_upper_bound; lia).
  destruct (k mod 2)%nat as [|[|n]]; cbn; auto. lia.
Qed.

Lemma gesture_choice k :
  choice (py "0") gesture_choices k = py "0"
  \/ choice (py "0") gesture_choices k = py "5".
Proof. apply choice_pair. Qed.

Lemma call_choice k :
  choice 15 call_choices k = 15 \/ choice 15 call_choices k = 20.
Proof. apply choice_pair. Qed.

Lemma Forall_last3 {A : Type} (P : A -> Prop) l :
  Forall P l -> Forall P (last3 l).
Proof.
  intros H. unfold last3.
  rewrite <- (firstn_skipn (List.length l - 3) l) in H.
  apply Forall_app in H. tauto.
Qed.

(** ** The labels that are not there *)

Lemma update_ui_raises s : update_ui s = Raised s.
Proof. reflexivity. Qed.

Lemma start_round_raises e s : start_round e s = Raised (open_round e s).
Proof. reflexivity. Qed.

Lemma settle_raises e start pg pc cg cc total s :
  settle e start pg pc cg cc total s
  = Raised (scored e start pg pc cg cc total s).
Proof. reflexivity. Qed.

(** A gesture event changes nothing: it is dropped, or it is accepted and
    the handler raises before it stores. *)
Lemma on_gesture_detected_cases e gesture s :
  (on_gesture_detected e gesture s = Done s []
   /\ (state s <> PLAYING \/ dict_get mapping gesture = None))
  \/ (on_gesture_detected e gesture s = Raised s
      /\ state s = PLAYING /\ dict_get mapping gesture <> None).
Proof.
  unfold on_gesture_detected.
  destruct (state s) eqn:Est; cbn [GameState_eqb];
    try (left; split; [reflexivity | left; discriminate]).
  destruct (dict_get mapping gesture) as [v|].
  - right. repeat split. discriminate.
  - left. split; [reflexivity | right; reflexivity].
Qed.

(** An utterance starts the game, closes the window, or makes the handler
    raise before anything is read from it. *)
Lemma on_voice_input_cases e text s :
  on_voice_input e text s = start_game s
  \/ on_voice_input e text s = Closed s
  \/ on_voice_input e text s = Raised s.
Proof.
  unfold on_voice_input.
  destruct (GameState_eqb (state s) WAITING && _); [left; reflexivity|].
  destruct (contains zh_tuichu_youxi text); [right; left; reflexivity|].
  right; right. reflexivity.
Qed.

(** ** Lemmas on [process_round] *)

Lemma int_gesture g :
  g = py "0" \/ g = py "5" ->
  exists v, int g = Some v /\ (v = 0 \/ v = 5).
Proof.
  intros [-> | ->]; [exists 0 | exists 5]; split; auto.
Qed.

(** A round that is due is settled: the guards are passed, both gestures
    convert, and the result is [settle] on the marked state. *)
Lemma process_round_settles e s :
  gesture_ok (player_gesture s) ->
  due_now e s = true ->
  exists pg pc start pv cv,
    player_gesture s = Some pg /\ player_call s = Some pc
    /\ round_start_time s = Some start /\ (start + 1 <= now e)%Q
    /\ int pg = Some pv /\ (pv = 0 \/ pv = 5)
    /\ int (choice (py "0") gesture_choices (pick_computer_gesture e))
       = Some cv
    /\ (cv = 0 \/ cv = 5)
    /\ process_round e s
       = settle e start pg pc
           (choice (py "0") gesture_choices (pick_computer_gesture e))
           (choice 15 call_choices (pick_computer_call e))
           (pv + cv) (mark_processed e s).
Proof.
  intros Hg Hdue. unfold due_now in Hdue. unfold process_round.
  destruct (player_gesture s) as [pg|] eqn:Epg; [|discriminate].
  destruct (player_call s) as [pc|] eqn:Epc; [|discriminate].
  destruct (round_start_time s) as [start|] eqn:Est; [|discriminate].
  destruct (Qlt_le_dec (now e - start) 1) as [Hlt|Hle]; [discriminate|].
  assert (Hpg : pg = py "0" \/ pg = py "5").
  { destruct Hg as [H | [H | H]]; inversion H; auto. }
  destruct (int_gesture pg Hpg) as (pv & Hpv & Hpv05).
  destruct (int_gesture _ (gesture_choice (pick_computer_gesture e)))
    as (cv & Hcv & Hcv05).
  exists pg, pc, start, pv, cv.
  rewrite Hpv, Hcv.
  repeat split; auto. lra.
Qed.

(** Before the second has gone by the call is put off, never lost: the
    state is untouched and one timer on [process_round] is armed. *)
Lemma process_round_defers e s pg pc start :
  player_gesture s = Some pg -> player_call s = Some pc ->
  round_start_time s = Some start -> (now e < start + 1)%Q ->
  process_round e s
  = Done s [ {| msec := trunc ((1 - (now e - start)) * 1000)%Q;
                slot := slot_process_round |} ].
Proof.
  intros Hg Hc Hs Hlt. unfold process_round. rewrite Hg, Hc, Hs.
  destruct (Qlt_le_dec (now e - start) 1) as [_|Hle]; [reflexivity|lra].
Qed.

(** Whatever [process_round] does, it leaves the player's inputs, the
    session state and the start time alone. *)
Lemma process_round_keeps e s :
  player_gesture (st (process_round e s)) = player_gesture s
  /\ player_call (st (process_round e s)) = player_call s
  /\ state (st (process_round e s)) = state s
  /\ round_start_time (st (process_round e s)) = round_start_time s
  /\ max_rounds (st (process_round e s)) = max_rounds s.
Proof.
  unfold process_round.
  destruct (player_gesture s) as [pg|] eqn:Epg;
    destruct (player_call s) as [pc|] eqn:Epc; cbn; auto.
  destruct (round_start_time s) as [start|] eqn:Est; cbn; auto.
  destruct (Qlt_le_dec (now e - start) 1); cbn; auto.
  destruct (int pg); cbn; auto.
  destruct (int _); cbn; auto.
Qed.

(** Unless the round is due, [process_round] changes no counter and no
    record. *)
Lemma process_round_not_due e s :
  gesture_ok (player_gesture s) ->
  due_now e s = false -> st (process_round e s) = s.
Proof.
  intros Hg. unfold due_now, process_round.
  destruct (player_gesture s) as [pg|] eqn:Epg;
    destruct (player_call s) as [pc|] eqn:Epc; cbn; auto.
  destruct (round_start_time s) as [start|] eqn:Est; cbn; auto.
  destruct (Qlt_le_dec (now e - start) 1); cbn; auto. discriminate.
Qed.

Lemma in_15_20_not_total cc pv cv :
  cc = 15 \/ cc = 20 -> pv = 0 \/ pv = 5 -> cv = 0 \/ cv = 5 ->
  (cc =? pv + cv) = false.
Proof. intros. apply Z.eqb_neq. lia. Qed.

Lemma judge_not_computer pc cc pv cv :
  cc = 15 \/ cc = 20 -> pv = 0 \/ pv = 5 -> cv = 0 \/ cv = 5 ->
  judge pc cc (pv + cv) <> ComputerWin.
Proof.
  intros Hcc Hpv Hcv. unfold judge.
  rewrite (in_15_20_not_total cc pv cv Hcc Hpv Hcv).
  destruct ((pc =? pv + cv) && negb (pc =? cc)); discriminate.
Qed.

Lemma Inv_process_round e s : Inv s -> Inv (st (process_round e s)).
Proof.
  intros HI. destruct (due_now e s) eqn:Hdue.
  - destruct (process_round_settles e s (inv_gesture s HI) Hdue)
      as (pg & pc & start & pv & cv & Hpg & Hpc & Hst & Ht & Hpv & Hpv05
          & Hcv & Hcv05 & ->).
    pose proof (call_choice (pick_computer_call e)) as Hcc.
    pose proof (judge_not_computer pc _ pv cv Hcc Hpv05 Hcv05) as Hj.
    destruct HI as [Hmax Hcomp Hval Hpl Hdr Hg Hrec].
    assert (Hr : Forall record_ok
                   (last3 (round_records s ++
                     [ {| rec_player_gesture := pg;
                          rec_player_call := pc;
                          rec_computer_gesture :=
                            choice (py "0") gesture_choices
                              (pick_computer_gesture e);
                          rec_computer_call :=
                            choice 15 call_choices (pick_computer_call e);
                          rec_total := pv + cv;
                          rec_outcome :=
                            judge pc
                              (choice 15 call_choices (pick_computer_call e))
                              (pv + cv) |} ]))).
    { apply Forall_last3, Forall_app. split; [exact Hrec|].
      constructor; [|constructor].
      unfold record_ok.
      cbn [rec_outcome rec_computer_call rec_total]. repeat split.
      - exact Hj.
      - destruct Hcc as [-> | ->]; cbn; auto.
      - destruct Hpv05 as [-> | ->], Hcv05 as [-> | ->]; cbn; auto. }
    rewrite settle_raises. unfold scored. cbn [st].
    destruct (judge pc _ (pv + cv)) eqn:Ej; try congruence;
      constructor; cbn; auto; lia.
  - rewrite (process_round_not_due e s (inv_gesture s HI) Hdue). exact HI.
Qed.

(** ** The invariant of the window *)

Lemma mapping_values gesture v :
  dict_get mapping gesture = Some v -> v = py "0" \/ v = py "5".
Proof.
  unfold mapping. cbn [dict_get].
  destruct (PyStr.eqb gesture (py "Fist")); [intros [= <-]; auto|].
  destruct (PyStr.eqb gesture (py "Palm")); [intros [= <-]; auto|].
  discriminate.
Qed.

Lemma Inv_init : Inv init_game.
Proof. constructor; cbn; try lia; [left; reflexivity | constructor]. Qed.

Lemma Inv_start_game s : Inv s -> Inv (st (start_game s)).
Proof.
  intros [Hmax Hcomp Hval Hpl Hdr Hg Hrec].
  constructor; cbn; auto; try lia.
Qed.

Lemma Inv_start_round e s : Inv s -> Inv (st (start_round e s)).
Proof.
  intros [Hmax Hcomp Hval Hpl Hdr Hg Hrec].
  constructor; cbn; auto. left; reflexivity.
Qed.

Lemma Inv_set_player_gesture g s :
  g = py "0" \/ g = py "5" -> Inv s -> Inv (set_player_gesture g s).
Proof.
  intros Hg0 [Hmax Hcomp Hval Hpl Hdr Hg Hrec].
  constructor; cbn; auto.
  right. destruct Hg0 as [-> | ->]; auto.
Qed.

Lemma Inv_set_player_call c s : Inv s -> Inv (set_player_call c s).
Proof. intros [Hmax Hcomp Hval Hpl Hdr Hg Hrec]. constructor; cbn; auto. Qed.

Lemma Inv_set_state g s : Inv s -> Inv (set_state g s).
Proof. intros [Hmax Hcomp Hval Hpl Hdr Hg Hrec]. constructor; cbn; auto. Qed.

Lemma Inv_auto_fill e s : Inv s -> Inv (auto_fill e s).
Proof.
  intros HI. unfold auto_fill.
  assert (H1 : Inv match player_gesture s with
                   | None =>
                       set_player_gesture
                         (choice (py "0") gesture_choices
                            (pick_player_gesture e)) s
                   | Some _ => s
                   end).
  { destruct (player_gesture s); [exact HI|].
    apply Inv_set_player_gesture; [apply gesture_choice | exact HI]. }
  destruct (player_call _); [exact H1|].
  apply Inv_set_player_call, H1.
Qed.

Lemma auto_fill_keeps e s :
  rounds_scored (auto_fill e s) = rounds_scored s
  /\ round_start_time (auto_fill e s) = round_start_time s.
Proof.
  unfold auto_fill, rounds_scored.
  destruct (player_gesture s) eqn:Eg, (player_call s) eqn:Ec;
    cbn; rewrite ?Ec; cbn; auto.
Qed.

Lemma auto_fill_inputs e s :
  player_gesture (auto_fill e s)
  = Some match player_gesture s with
         | Some g => g
         | None => choice (py "0") gesture_choices (pick_player_gesture e)
         end
  /\ player_call (auto_fill e s)
     = Some match player_call s with
            | Some c => c
            | None => choice 15 call_choices (pick_player_call e)
            end.
Proof.
  unfold auto_fill.
  destruct (player_gesture s) eqn:Eg, (player_call s) eqn:Ec;
    cbn; rewrite ?Ec; cbn; auto.
Qed.

Lemma Inv_auto_process_round e s :
  Inv s -> Inv (st (auto_process_round e s)).
Proof.
  intros HI. unfold auto_process_round.
  destruct (negb (GameState_eqb (state s) PLAYING) || round_processed s);
    [exact HI|].
  apply Inv_process_round, Inv_auto_fill, HI.
Qed.

Lemma Inv_on_gesture_detected e g s :
  Inv s -> Inv (st (on_gesture_detected e g s)).
Proof.
  intros HI.
  destruct (on_gesture_detected_cases e g s) as [[-> _] | [-> _]];
    exact HI.
Qed.

Lemma Inv_on_voice_input e text s :
  Inv s -> Inv (st (on_voice_input e text s)).
Proof.
  intros HI.
  destruct (on_voice_input_cases e text s) as [-> | [-> | ->]];
    [apply Inv_start_game, HI | exact HI | exact HI].
Qed.

Lemma Inv_end_game e s : Inv s -> Inv (st (end_game e s)).
Proof.
  intros HI. unfold end_game.
  destruct (continue_clicked e).
  - apply Inv_start_game, Inv_set_state, HI.
  - apply Inv_set_state, HI.
Qed.

Lemma Inv_handle e ev s : Inv s -> Inv (st (handle e ev s)).
Proof.
  intros HI. destruct ev as [| | |f|g|text]; cbn [handle].
  - apply Inv_start_game, HI.
  - exact HI.
  - exact HI.
  - destruct f.
    + apply Inv_start_round, HI.
    + apply Inv_auto_process_round, HI.
    + apply Inv_process_round, HI.
    + apply Inv_end_game, HI.
  - apply Inv_on_gesture_detected, HI.
  - apply Inv_on_voice_input, HI.
Qed.

Lemma reachable_Inv s : reachable s -> Inv s.
Proof.
  induction 1 as [|s e ev _ IH]; [apply Inv_init | apply Inv_handle, IH].
Qed.



(** ** The outcome of a round *)




(** ** The computer never wins *)

(** C9.  In every reachable state [score_computer] is 0, and every round
    on record was not won by the computer: its computer call is 15 or 20
    and its total is 0, 5 or 10, so the call never equals the total. *)
Theorem computer_never_wins s :
  reachable s ->
  score_computer s = 0
  /\ Forall (fun r => rec_outcome r <> ComputerWin
                      /\ In (rec_computer_call r) [15; 20]
                      /\ In (rec_total r) [0; 5; 10]
                      /\ rec_computer_call r <> rec_total r)
       (round_records s).
Proof.
  intros Hr. pose proof (reachable_Inv s Hr) as HI.
  split; [exact (inv_computer s HI)|].
  eapply Forall_impl; [|exact (inv_records s HI)].
  intros r (Ho & Hc & Ht). repeat split; auto.
  cbn in Hc, Ht. lia.
Qed.

Lemma computer_never_wins_witness :
  reachable (st (process_round (at_time 5) sample_round))
  /\ score_computer (st (process_round (at_time 5) sample_round)) = 0
  /\ Forall (fun r => rec_outcome r <> ComputerWin
                      /\ In (rec_computer_call r) [15; 20]
                      /\ In (rec_total r) [0; 5; 10]
                      /\ rec_computer_call r <> rec_total r)
       (round_records (st (process_round (at_time 5) sample_round))).
Proof.
  assert (Hr : reachable (st (process_round (at_time 5) sample_round))).
  { change (reachable (st (handle (at_time 5)
                             (TimerFired slot_process_round) sample_round))).
    unfold sample_round, sample_open. do 4 apply reach_step.
    apply reach_init. }
  split; [exact Hr|].
  exact (computer_never_wins _ Hr).
Defined.

(** ** The stillness second *)

Lemma due_now_time e s :
  due_now e s = true ->
  exists start, round_start_time s = Some start /\ (start + 1 <= now e)%Q.
Proof.
  unfold due_now.
  destruct (player_gesture s); [|discriminate].
  destruct (player_call s); [|discriminate].
  destruct (round_start_time s) as [start|]; [|discriminate].
  destruct (Qlt_le_dec (now e - start) 1); [discriminate|].
  intros _. exists start. split; [reflexivity | lra].
Qed.

Lemma rounds_scored_nonneg s : Inv s -> 0 <= rounds_scored s.
Proof.
  intros [Hmax Hcomp Hval Hpl Hdr Hg Hrec]. unfold rounds_scored. lia.
Qed.

(** A call of [process_round] that scores is one on a round that is due. *)
Lemma process_round_scores e s :
  gesture_ok (player_gesture s) ->
  rounds_scored s < rounds_scored (st (process_round e s)) ->
  exists start, round_start_time s = Some start /\ (start + 1 <= now e)%Q.
Proof.
  intros Hg Hlt. destruct (due_now e s) eqn:Hdue.
  - apply due_now_time, Hdue.
  - rewrite (process_round_not_due e s Hg Hdue) in Hlt. lia.
Qed.

Lemma trunc_bounds x :
  (0 < x)%Q -> 0 <= trunc x /\ (inject_Z (trunc x) <= x)%Q.
Proof.
  destruct x as [n d]. unfold Qlt, Qle, trunc. cbn. intros Hn.
  assert (Hpos : 0 <= n) by lia.
  split; [apply Z.quot_pos; lia|].
  pose proof (Z.mul_quot_le n (Zpos d) Hpos ltac:(lia)). lia.
Qed.

(** C3.  No round is settled before one second has gone by since it was
    started: whatever event the window handles in a reachable state, if
    that adds a round to the score then the clock reads at least
    [round_start_time + 1].  And a call of [process_round] that comes
    earlier, with both inputs stored, is put off rather than lost: the
    state stays as it is and a single timer on [process_round] is armed
    for the whole milliseconds that remain of the second. *)
Theorem stillness_rule e s :
  reachable s ->
  (forall ev,
      rounds_scored s < rounds_scored (st (handle e ev s)) ->
      exists start,
        round_start_time s = Some start /\ (start + 1 <= now e)%Q)
  /\ (forall pg pc start,
         player_gesture s = Some pg -> player_call s = Some pc ->
         round_start_time s = Some start -> (now e < start + 1)%Q ->
         process_round e s
         = Done s [ {| msec := trunc ((1 - (now e - start)) * 1000)%Q;
                       slot := slot_process_round |} ]
         /\ 0 <= trunc ((1 - (now e - start)) * 1000)%Q
         /\ (inject_Z (trunc ((1 - (now e - start)) * 1000))
             <= (1 - (now e - start)) * 1000)%Q).
Proof.
  intros Hr. pose proof (reachable_Inv s Hr) as HI.
  pose proof (rounds_scored_nonneg s HI) as H0.
  split.
  - intros ev Hlt. destruct ev as [| | |f|g|text]; cbn [handle] in Hlt.
    + cbn in Hlt. lia.
    + cbn in Hlt. lia.
    + cbn in Hlt. lia.
    + destruct f.
      * cbn in Hlt. unfold rounds_scored in Hlt. cbn in Hlt. lia.
      * unfold auto_process_round in Hlt.
        destruct (negb (GameState_eqb (state s) PLAYING)
                  || round_processed s); [cbn in Hlt; lia|].
        destruct (auto_fill_keeps e s) as [Hsc Hst].
        rewrite <- Hsc in Hlt. rewrite <- Hst.
        apply process_round_scores in Hlt; [exact Hlt|].
        exact (inv_gesture _ (Inv_auto_fill e s HI)).
      * apply process_round_scores in Hlt; [exact Hlt|].
        exact (inv_gesture s HI).
      * unfold end_game in Hlt. destruct (continue_clicked e);
          cbn in Hlt; unfold rounds_scored in *; cbn in Hlt; lia.
    + destruct (on_gesture_detected_cases e g s) as [[Heq _] | [Heq _]];
        rewrite Heq in Hlt; cbn in Hlt; lia.
    + destruct (on_voice_input_cases e text s) as [Heq | [Heq | Heq]];
        rewrite Heq in Hlt; cbn in Hlt; unfold rounds_scored in *;
        cbn in Hlt; lia.
  - intros pg pc start Hg Hc Hs Hlt.
    split; [apply (process_round_defers e s pg pc start); assumption|].
    apply trunc_bounds. lra.
Qed.

Lemma stillness_rule_witness :
  reachable sample_round
  /\ process_round (at_time 3.75) sample_round
     = Done sample_round [ {| msec := 250; slot := slot_process_round |} ].
Proof.
  assert (Hr : reachable sample_round).
  { unfold sample_round, sample_open. do 3 apply reach_step.
    apply reach_init. }
  split; [exact Hr|].
  destruct (stillness_rule (at_time 3.75) sample_round Hr) as [_ H].
  destruct (H (py "0") 15 3%Q eq_refl eq_refl eq_refl eq_refl) as [Heq _].
  exact Heq.
Defined.

(** ** The number extractor *)

Lemma scan_rule text :
  match scan text with
  | Some n =>
      exists pre c post,
        text = pre ++ c :: post
        /\ Forall (fun x => accepted_value x = None) pre
        /\ accepted_value c = Some n
  | None => Forall (fun x => accepted_value x = None) text
  end.
Proof.
  induction text as [|c rest IH]; cbn [scan]; [constructor|].
  destruct (cn_num_get cn_num c) as [num|] eqn:Ec.
  - destruct (in_call_range num) eqn:Er.
    + exists [], c, rest. repeat split; [constructor|].
      unfold accepted_value. now rewrite Ec, Er.
    + assert (Hc : accepted_value c = None).
      { unfold accepted_value. now rewrite Ec, Er. }
      destruct (scan rest) as [n|].
      * destruct IH as (pre & c' & post & -> & Hpre & Hc').
        exists (c :: pre), c', post. repeat split; auto.
      * constructor; auto.
  - assert (Hc : accepted_value c = None).
    { unfold accepted_value. now rewrite Ec. }
    destruct (scan rest) as [n|].
    + destruct IH as (pre & c' & post & -> & Hpre & Hc').
      exists (c :: pre), c', post. repeat split; auto.
    + constructor; auto.
Qed.

Lemma accepted_value_range c n :
  accepted_value c = Some n ->
  cn_num_get cn_num c = Some n /\ 0 <= n <= 5.
Proof.
  unfold accepted_value.
  destruct (cn_num_get cn_num c) as [num|]; [|discriminate].
  destruct (in_call_range num) eqn:Er; [|discriminate].
  intros [= <-]. split; [reflexivity|].
  unfold in_call_range in Er. apply andb_true_iff in Er. lia.
Qed.

Lemma extract_number_range text n :
  extract_number text = Some n -> 0 <= n <= 5.
Proof.
  unfold extract_number. intros H.
  pose proof (scan_rule (normalize text)) as Hs. rewrite H in Hs.
  destruct Hs as (pre & c & post & _ & _ & Hc).
  apply accepted_value_range in Hc. tauto.
Qed.

(** C4, as the specification states it, fails on "八三": the first
    character found in the table, 八, is worth 8 and is out of range, so
    the specification's extractor answers no call; the code goes on to 三
    and answers 3. *)
Lemma first_match_counterexample :
  cn_num_get cn_num zh_ba = Some 8
  /\ spec_Extract [zh_ba; zh_san] = None
  /\ extract_number [zh_ba; zh_san] = Some 3.
Proof. repeat split. Qed.

(** C4, amended.  [extract_number] scans the normalised text from left to
    right and returns the value of the first character that is in the
    digit table with a value in [0,5]; characters that are not in the
    table, or whose value is out of range, are passed over; when no
    character qualifies the answer is no call.  In particular "三" gives
    3, "八" gives no call, the empty text gives no call. *)
Theorem extract_number_rule text :
  match extract_number text with
  | Some n =>
      0 <= n <= 5
      /\ exists pre c post,
           normalize text = pre ++ c :: post
           /\ Forall (fun x => accepted_value x = None) pre
           /\ cn_num_get cn_num c = Some n
  | None => Forall (fun x => accepted_value x = None) (normalize text)
  end
  /\ extract_number [zh_san] = Some 3
  /\ extract_number [zh_ba] = None
  /\ extract_number [] = None.
Proof.
  split; [|repeat split].
  unfold extract_number.
  pose proof (scan_rule (normalize text)) as Hs.
  destruct (scan (normalize text)) as [n|]; [|exact Hs].
  destruct Hs as (pre & c & post & Heq & Hpre & Hc).
  apply accepted_value_range in Hc. destruct Hc as [Hc Hn].
  split; [exact Hn|]. exists pre, c, post. auto.
Qed.

(** ** Filling in by the timeout *)

(** C5, as the specification states it, fails: in the round opened at
    second 3 nothing has been called when the timeout fires; the call it
    fills in is 15, and no utterance at all makes [extract_number] deliver
    15. *)
Lemma fill_call_counterexample :
  state sample_open = PLAYING
  /\ round_processed sample_open = false
  /\ player_call sample_open = None
  /\ player_call (st (auto_process_round (at_time 18) sample_open))
     = Some 15
  /\ (forall text, extract_number text <> Some 15)
  /\ ~ spec_fill_from_live_domain.
Proof.
  assert (H15 : forall text, extract_number text <> Some 15).
  { intros text H. apply extract_number_range in H. lia. }
  repeat split; auto.
  intros Hspec.
  destruct (Hspec (at_time 18) sample_open 15 eq_refl eq_refl eq_refl eq_refl)
    as [text Ht].
  exact (H15 text Ht).
Qed.

(** C5, amended.  When the timeout fires on a round that is being played
    and is not yet processed, an input that is already stored is kept and
    a missing one is filled in by a draw from a fixed list: the gesture
    from "0" and "5", which are exactly the values [mapping] gives to the
    labels a live gesture event is accepted with, and the call from 15
    and 20, which no live voice event can deliver, [extract_number] being
    limited to 0..5. *)
Theorem timeout_fill_domains e s :
  state s = PLAYING -> round_processed s = false ->
  (match player_gesture s with
   | Some g => player_gesture (st (auto_process_round e s)) = Some g
   | None =>
       exists g, player_gesture (st (auto_process_round e s)) = Some g
                 /\ In g gesture_choices
   end)
  /\ (match player_call s with
      | Some c => player_call (st (auto_process_round e s)) = Some c
      | None =>
          exists c, player_call (st (auto_process_round e s)) = Some c
                    /\ In c call_choices
      end)
  /\ (forall g, In g gesture_choices
                <-> exists label, dict_get mapping label = Some g)
  /\ (forall c text, In c call_choices -> extract_number text <> Some c).
Proof.
  intros Hst Hrp. unfold auto_process_round. rewrite Hst, Hrp. cbn [negb orb GameState_eqb].
  destruct (process_round_keeps e (auto_fill e s)) as (-> & -> & _).
  destruct (auto_fill_inputs e s) as [Hg Hc]. rewrite Hg, Hc.
  split; [|split; [|split]].
  - destruct (player_gesture s) as [g|]; [reflexivity|].
    eexists. split; [reflexivity|].
    destruct (gesture_choice (pick_player_gesture e)) as [-> | ->];
      cbn; auto.
  - destruct (player_call s) as [c|]; [reflexivity|].
    eexists. split; [reflexivity|].
    destruct (call_choice (pick_player_call e)) as [-> | ->]; cbn; auto.
  - intros g. split.
    + intros [<- | [<- | []]];
        [exists (py "Fist") | exists (py "Palm")]; reflexivity.
    + intros [label Hl]. apply mapping_values in Hl.
      destruct Hl as [-> | ->]; cbn; auto.
  - intros c text Hin H. apply extract_number_range in H.
    cbn in Hin. lia.
Qed.

Lemma timeout_fill_domains_witness :
  state sample_open = PLAYING /\ round_processed sample_open = false
  /\ exists g c,
       player_gesture (st (auto_process_round (at_time 18) sample_open))
       = Some g
       /\ In g gesture_choices
       /\ player_call (st (auto_process_round (at_time 18) sample_open))
          = Some c
       /\ In c call_choices.
Proof.
  split; [reflexivity|]. split; [reflexivity|].
  destruct (timeout_fill_domains (at_time 18) sample_open eq_refl eq_refl)
    as (Hg & Hc & _).
  cbn [sample_open] in Hg, Hc.
  destruct Hg as (g & Hg & Hgin). destruct Hc as (c & Hc & Hcin).
  exists g, c. auto.
Defined.

(** ** Events on an input channel *)


(** ** Timeouts that fire late *)




(** ** Gestures from the camera *)



Lemma detect_values gestures hands :
  forall idx acc l,
    detect gestures idx hands acc = Some l ->
    Forall (fun n => n = 0 \/ n = 5) acc ->
    Forall (fun n => n = 0 \/ n = 5) l.
Proof.
  induction hands as [|[lm hd] rest IH]; intros idx acc l; cbn [detect].
  - intros [= <-]; auto.
  - destruct hd as [|h hd]; [discriminate|].
    destruct (nonempty gestures && (idx <? List.length gestures)%nat);
      [|apply IH].
    destruct (nth_error gestures idx) as [[|top tl]|]; try discriminate.
    destruct (Qle_bool GESTURE_CONFIDENCE_THRESHOLD (score top));
      [|apply IH].
    destruct (dict_get GESTURE_NAME_MAPPING (category_name top))
      as [g|] eqn:Eg; [|apply IH].
    assert (Hg : g = py "0" \/ g = py "5").
    { revert Eg. unfold GESTURE_NAME_MAPPING. cbn [dict_get].
      destruct (PyStr.eqb _ (py "Closed_Fist")); [intros [= <-]; auto|].
      destruct (PyStr.eqb _ (py "Open_Palm")); [intros [= <-]; auto|].
      discriminate. }
    destruct (nonempty g); [|apply IH].
    destruct (int_gesture g Hg) as (v & -> & Hv).
    intros Hd Hacc. apply (IH _ _ _ Hd).
    apply Forall_app. split; [exact Hacc|]. constructor; auto.
Qed.




(** ** Rounds that are never settled *)

Lemma run_reachable trace :
  forall w w', reachable (window w) -> run trace w = Some w' ->
               reachable (window w').
Proof.
  induction trace as [|[e tr] trace IH]; intros w w' Hr; cbn [run].
  - intros [= <-]. exact Hr.
  - destruct (exec e tr w) as [w1|] eqn:Ex; [|discriminate].
    apply IH. unfold exec in Ex.
    destruct (running w && Qle_bool (clock w) (now e)
              && Qle_bool (now e) (now_reaction e)); [|discriminate].
    destruct tr as [i|ev].
    + destruct (nth_error (pending w) i) as [p|]; [|discriminate].
      destruct (Qle_bool (due p) (now e)); [|discriminate].
      injection Ex as <-. unfold dispatch. cbn [window].
      apply reach_step, Hr.
    + destruct ev; try discriminate; injection Ex as <-;
        unfold dispatch; cbn [window]; apply reach_step, Hr.
Qed.

Lemma process_round_armed e s tm :
  In tm (armed_by (process_round e s)) -> slot tm = slot_process_round.
Proof.
  unfold process_round.
  destruct (player_gesture s) as [pg|]; [|intros []].
  destruct (player_call s) as [pc|]; [|intros []].
  destruct (round_start_time s) as [start|]; [|intros []].
  destruct (Qlt_le_dec (now e - start) 1).
  - intros [<- | []]. reflexivity.
  - destruct (int pg); [|intros []].
    destruct (int _); [|intros []].
    rewrite settle_raises. intros [].
Qed.

(** The timers a handler can arm: the one of [start_game], and the one
    that puts a round off. *)
Lemma handle_armed e ev s tm :
  In tm (armed_by (handle e ev s)) ->
  tm = {| msec := 3000; slot := slot_start_round |}
  \/ slot tm = slot_process_round.
Proof.
  destruct ev as [| | |[| | |]|g|text]; cbn [handle].
  - intros [<- | []]. left; reflexivity.
  - intros [].
  - intros [].
  - rewrite start_round_raises. intros [].
  - unfold auto_process_round.
    destruct (negb (GameState_eqb (state s) PLAYING) || round_processed s);
      [intros [] | right; eapply process_round_armed; eassumption].
  - right; eapply process_round_armed; eassumption.
  - unfold end_game. destruct (continue_clicked e).
    + intros [<- | []]. left; reflexivity.
    + intros [].
  - destruct (on_gesture_detected_cases e g s) as [[-> _] | [-> _]];
      intros [].
  - destruct (on_voice_input_cases e text s) as [-> | [-> | ->]].
    + intros [<- | []]. left; reflexivity.
    + intros [].
    + intros [].
Qed.

Lemma exec_never_played e tr w w' :
  never_played w -> exec e tr w = Some w' -> never_played w'.
Proof.
  intros (Hg & Hc & Hsc & Hv & Hrec & Hfin & Hpend). unfold exec.
  destruct (running w && Qle_bool (clock w) (now e)
            && Qle_bool (now e) (now_reaction e)); [|discriminate].
  assert (Hstart : never_played
            (dispatch e StartClicked (pending w) w)).
  { unfold never_played, dispatch. cbn.
    repeat split; auto; try discriminate.
    apply Forall_app. split; [exact Hpend|].
    constructor; [reflexivity | constructor]. }
  assert (Hsame : forall ev rest,
            Forall (fun p => target p = slot_start_round) rest ->
            st (handle e ev (window w)) = window w ->
            armed_by (handle e ev (window w)) = [] ->
            never_played (dispatch e ev rest w)).
  { intros ev rest Hrest Hst Harm. unfold never_played, dispatch.
    cbn [window pending]. rewrite Hst, Harm. cbn [map].
    rewrite app_nil_r. repeat split; assumption. }
  destruct tr as [i|ev].
  - destruct (nth_error (pending w) i) as [p|] eqn:Ep; [|discriminate].
    destruct (Qle_bool (due p) (now e)); [|discriminate].
    intros [= <-].
    assert (Hp : target p = slot_start_round).
    { rewrite Forall_forall in Hpend. apply Hpend.
      eapply nth_error_In, Ep. }
    rewrite Hp. unfold never_played, dispatch.
    cbn [window pending handle]. rewrite start_round_raises.
    cbn [st armed_by map open_round player_gesture player_call
         valid_rounds round_records state].
    rewrite app_nil_r.
    assert (Hdrop : forall (l : list Pending) k,
              Forall (fun p => target p = slot_start_round) l ->
              Forall (fun p => target p = slot_start_round) (drop k l)).
    { intros l k Hl. revert k.
      induction Hl as [|x l Hx Hl' IH]; intros [|k]; cbn [drop].
      - constructor.
      - constructor.
      - exact Hl'.
      - constructor; [exact Hx | apply IH]. }
    repeat split; auto.
  - destruct ev as [| | |f|g|text]; try discriminate; intros [= <-].
    + exact Hstart.
    + apply Hsame; [exact Hpend | reflexivity | reflexivity].
    + apply Hsame; [exact Hpend | reflexivity | reflexivity].
    + cbn [handle] in *.
      destruct (on_gesture_detected_cases e g (window w))
        as [[Heq _] | [Heq _]];
        (apply Hsame; [exact Hpend | |]; cbn [handle]; rewrite Heq;
         reflexivity).
    + destruct (on_voice_input_cases e text (window w))
        as [Heq | [Heq | Heq]].
      * unfold dispatch in *. cbn [handle] in *. rewrite Heq.
        exact Hstart.
      * apply Hsame; [exact Hpend | |]; cbn [handle]; rewrite Heq;
          reflexivity.
      * apply Hsame; [exact Hpend | |]; cbn [handle]; rewrite Heq;
          reflexivity.
Qed.

Lemma run_never_played trace :
  forall w w', never_played w -> run trace w = Some w' -> never_played w'.
Proof.
  induction trace as [|[e tr] trace IH]; intros w w' Hw; cbn [run].
  - intros [= <-]. exact Hw.
  - destruct (exec e tr w) as [w1|] eqn:Ex; [|discriminate].
    apply IH. eapply exec_never_played; eassumption.
Qed.

Lemma never_played_init : never_played init_world.
Proof.
  unfold never_played. cbn. repeat split; try discriminate. constructor.
Qed.

(** C1 does not hold of the code, in which a round gets no outcome at
    all.  The start button and the three seconds of the ready delay open
    the first round ([trace_first_round]): [start_round] resets the round
    and then raises in [update_ui] on [self.round_label], which nothing
    creates, before it arms the timeout.  From there on, whatever the
    event loop dispatches, no input is ever stored, the only timers that
    ever wait are those of the start button, and no round is ever scored
    or put on record. *)
Theorem round_never_settled trace w :
  run trace init_world = Some w ->
  rounds_scored (window w) = 0
  /\ round_records (window w) = []
  /\ player_gesture (window w) = None
  /\ player_call (window w) = None
  /\ Forall (fun p => target p = slot_start_round) (pending w).
Proof.
  intros Hrun.
  destruct (run_never_played trace init_world w never_played_init Hrun)
    as (Hg & Hc & Hsc & Hv & Hrec & Hfin & Hpend).
  auto.
Qed.

Lemma round_never_settled_witness :
  option_map (fun w => (round_no w, round_start_time (window w),
                        round_processed (window w), pending w))
    (run trace_first_round init_world)
  = Some (1%nat, Some 3%Q, false, [])
  /\ match run trace_first_round init_world with
     | Some w => rounds_scored (window w) = 0
     | None => False
     end.
Proof.
  split; [reflexivity|].
  destruct (run trace_first_round init_world) as [w|] eqn:Ew.
  - exact (proj1 (round_never_settled trace_first_round w Ew)).
  - vm_compute in Ew. discriminate Ew.
Defined.

(** ** Valid rounds and the end of the session *)


(** ** What one event does to the ledger *)

(** Every handler either leaves the ledger alone and arms nothing, or
    resets it (a new game), or ends in a call of [process_round] on a
    state with the same ledger and start time. *)
Lemma handle_cases e ev s :
  (exists s',
      (handle e ev s = Done s' [] \/ handle e ev s = Closed s'
       \/ handle e ev s = Raised s')
      /\ ledger s' = ledger s)
  \/ (exists s',
         handle e ev s
         = Done s' [ {| msec := 3000; slot := slot_start_round |} ]
         /\ ledger s' = (0, 0, 0, 0, max_rounds s, [], [])
         /\ round_start_time s' = round_start_time s)
  \/ (exists s1,
         handle e ev s = process_round e s1
         /\ ledger s1 = ledger s
         /\ round_start_time s1 = round_start_time s
         /\ (Inv s -> Inv s1)).
Proof.
  assert (Hgame : exists s',
             start_game s
             = Done s' [ {| msec := 3000; slot := slot_start_round |} ]
             /\ ledger s' = (0, 0, 0, 0, max_rounds s, [], [])
             /\ round_start_time s' = round_start_time s).
  { eexists. repeat split. }
  destruct ev as [| | |[| | |]|g|text]; cbn [handle].
  - right; left. exact Hgame.
  - left. eexists. split; [right; left; reflexivity | reflexivity].
  - left. eexists. split; [left; reflexivity | reflexivity].
  - left. eexists. rewrite start_round_raises.
    split; [right; right; reflexivity | reflexivity].
  - unfold auto_process_round.
    destruct (negb (GameState_eqb (state s) PLAYING) || round_processed s).
    + left. eexists. split; [left; reflexivity | reflexivity].
    + right; right. exists (auto_fill e s).
      split; [reflexivity|].
      destruct (auto_fill_keeps e s) as [_ Hst].
      split; [|split; [exact Hst | apply Inv_auto_fill]].
      unfold auto_fill, ledger.
      destruct (player_gesture s) eqn:Eg, (player_call s) eqn:Ec;
        cbn; rewrite ?Ec; cbn; reflexivity.
  - right; right. exists s.
    split; [reflexivity|]. split; [reflexivity|]. split; [reflexivity|].
    auto.
  - unfold end_game. destruct (continue_clicked e).
    + right; left. eexists. repeat split.
    + left. eexists. split; [right; left; reflexivity | reflexivity].
  - left. exists s.
    destruct (on_gesture_detected_cases e g s) as [[-> _] | [-> _]];
      (split; [auto | reflexivity]).
  - destruct (on_voice_input_cases e text s) as [-> | [-> | ->]].
    + right; left. exact Hgame.
    + left. exists s. split; [auto | reflexivity].
    + left. exists s. split; [auto | reflexivity].
Qed.

(** A round that is due: [process_round] scores it and raises, and this
    is the state it leaves. *)
Lemma process_round_due e s :
  gesture_ok (player_gesture s) -> due_now e s = true ->
  exists r s',
    process_round e s = Raised s'
    /\ round_records s' = last3 (round_records s ++ [r])
    /\ rounds_scored s' = rounds_scored s + 1
    /\ round_processed s' = true
    /\ player_gesture s' = player_gesture s
    /\ player_call s' = player_call s
    /\ computer_gesture s' <> None
    /\ computer_call s' <> None.
Proof.
  intros Hg Hdue.
  destruct (process_round_settles e s Hg Hdue)
    as (pg & pc & start & pv & cv & Hpg & Hpc & Hst & Ht & Hpv & Hpv05
        & Hcv & Hcv05 & ->).
  rewrite settle_raises. unfold scored. do 2 eexists.
  split; [reflexivity|]. cbn.
  split; [reflexivity|].
  split.
  { unfold rounds_scored. cbn.
    destruct (judge pc _ (pv + cv)); lia. }
  split; [reflexivity|]. split; [reflexivity|]. split; [reflexivity|].
  split; discriminate.
Qed.

(** A round that is not due: nothing happens, or the call is put off, or
    the subtraction from a start time that is not there raises. *)
Lemma process_round_idle e s :
  due_now e s = false ->
  (process_round e s = Done s []
   /\ (player_gesture s = None \/ player_call s = None))
  \/ (exists start,
         round_start_time s = Some start /\ (now e < start + 1)%Q
         /\ process_round e s
            = Done s [ {| msec := trunc ((1 - (now e - start)) * 1000)%Q;
                          slot := slot_process_round |} ]
         /\ 0 <= trunc ((1 - (now e - start)) * 1000)%Q)
  \/ (process_round e s = Raised s
      /\ player_gesture s <> None /\ player_call s <> None
      /\ round_start_time s = None).
Proof.
  unfold due_now, process_round.
  destruct (player_gesture s) as [pg|]; [|left; auto].
  destruct (player_call s) as [pc|]; [|left; auto].
  destruct (round_start_time s) as [start|].
  - destruct (Qlt_le_dec (now e - start) 1) as [Hlt|]; [|discriminate].
    intros _. right; left. exists start.
    split; [reflexivity|]. split; [lra|]. split; [reflexivity|].
    apply trunc_bounds. lra.
  - intros _. right; right. repeat split; discriminate.
Qed.

Lemma length_last3 {A : Type} (l : list A) :
  (List.length (last3 l) <= 3)%nat.
Proof. unfold last3. rewrite length_skipn. lia. Qed.

Lemma last3_snoc {A : Type} (l : list A) (x : A) :
  last3 (l ++ [x]) = skipn (List.length l - 2) l ++ [x].
Proof.
  unfold last3. rewrite length_app, skipn_app. cbn [List.length].
  replace (List.length l + 1 - 3)%nat with (List.length l - 2)%nat by lia.
  replace (List.length l - 2 - List.length l)%nat with 0%nat by lia.
  reflexivity.
Qed.

(** ** Further properties of the game window *)

(** X1.  The record of rounds never holds more than three entries, and a
    settled round puts its record last, behind the two newest of the
    records there were. *)
Theorem history_bounded s :
  reachable s ->
  (List.length (round_records s) <= 3)%nat
  /\ forall e, due_now e s = true ->
       exists r,
         round_records (st (process_round e s))
         = skipn (List.length (round_records s) - 2) (round_records s)
           ++ [r].
Proof.
  intros Hr. split.
  - induction Hr as [|s e ev Hr IH]; [cbn; lia|].
    pose proof (reachable_Inv s Hr) as HI.
    destruct (handle_cases e ev s)
      as [(s' & [-> | [-> | ->]] & Hl) | [(s' & -> & Hl & _)
         | (s1 & -> & Hl & _ & HI1)]];
      cbn [st]; try (injection Hl as _ _ _ _ _ -> _; assumption; fail).
    + injection Hl as _ _ _ _ _ -> _. cbn. lia.
    + destruct (due_now e s1) eqn:Hdue.
      * destruct (process_round_due e s1 (inv_gesture _ (HI1 HI)) Hdue)
          as (r & s' & -> & Hrec & _).
        cbn [st]. rewrite Hrec. apply length_last3.
      * rewrite (process_round_not_due e s1 (inv_gesture _ (HI1 HI)) Hdue).
        injection Hl as _ _ _ _ _ -> _. assumption.
  - intros e Hdue.
    destruct (process_round_due e s
                (inv_gesture _ (reachable_Inv s Hr)) Hdue)
      as (r & s' & -> & Hrec & _).
    exists r. cbn [st]. rewrite Hrec. apply last3_snoc.
Qed.

Lemma history_bounded_witness :
  reachable sample_round
  /\ (List.length (round_records sample_round) <= 3)%nat
  /\ exists r,
       round_records (st (process_round (at_time 5) sample_round))
       = skipn (List.length (round_records sample_round) - 2)
           (round_records sample_round) ++ [r].
Proof.
  assert (Hr : reachable sample_round).
  { unfold sample_round, sample_open. do 3 apply reach_step.
    apply reach_init. }
  split; [exact Hr|].
  destruct (history_bounded sample_round Hr) as [Hlen Hnew].
  split; [exact Hlen|]. exact (Hnew (at_time 5) eq_refl).
Defined.

(** X2.  One event scores at most one round: after any handler the number
    of rounds scored is what it was, or one more, or zero again (a new
    game); and whenever it is one more, the round that was scored is
    complete: both inputs of the player and both draws of the computer
    are stored and the round is marked as processed. *)
Theorem one_round_per_event e ev s :
  reachable s ->
  (rounds_scored (st (handle e ev s)) = rounds_scored s
   \/ rounds_scored (st (handle e ev s)) = 0
   \/ rounds_scored (st (handle e ev s)) = rounds_scored s + 1)
  /\ (rounds_scored (st (handle e ev s)) = rounds_scored s + 1 ->
      player_gesture (st (handle e ev s)) <> None
      /\ player_call (st (handle e ev s)) <> None
      /\ computer_gesture (st (handle e ev s)) <> None
      /\ computer_call (st (handle e ev s)) <> None
      /\ round_processed (st (handle e ev s)) = true).
Proof.
  intros Hr. pose proof (reachable_Inv s Hr) as HI.
  pose proof (rounds_scored_nonneg s HI) as H0.
  assert (Hsame : forall s', ledger s' = ledger s ->
                             rounds_scored s' = rounds_scored s).
  { intros s' Hl. unfold rounds_scored.
    injection Hl as -> -> -> _ _ _ _. reflexivity. }
  destruct (handle_cases e ev s)
    as [(s' & [-> | [-> | ->]] & Hl) | [(s' & -> & Hl & _)
       | (s1 & -> & Hl & _ & HI1)]]; cbn [st].
  - rewrite (Hsame s' Hl). split; [auto | lia].
  - rewrite (Hsame s' Hl). split; [auto | lia].
  - rewrite (Hsame s' Hl). split; [auto | lia].
  - assert (H : rounds_scored s' = 0).
    { unfold rounds_scored. injection Hl as -> -> -> _ _ _ _. reflexivity. }
    rewrite H. split; [auto | lia].
  - rewrite <- (Hsame s1 Hl).
    destruct (due_now e s1) eqn:Hdue.
    + destruct (process_round_settles e s1 (inv_gesture _ (HI1 HI)) Hdue)
        as (pg & pc & _ & _ & _ & Hpg & Hpc & _).
      destruct (process_round_due e s1 (inv_gesture _ (HI1 HI)) Hdue)
        as (r & s' & -> & _ & Hsc & Hrp & Hg & Hc & Hcg & Hcc).
      cbn [st]. split; [auto|]. intros _.
      rewrite Hg, Hc, Hpg, Hpc. repeat split; auto; discriminate.
    + rewrite (process_round_not_due e s1 (inv_gesture _ (HI1 HI)) Hdue).
      split; [auto | lia].
Qed.

Lemma one_round_per_event_witness :
  reachable sample_round
  /\ rounds_scored (st (handle (at_time 5) (TimerFired slot_process_round)
                          sample_round))
     = rounds_scored sample_round + 1
  /\ round_processed (st (handle (at_time 5)
                            (TimerFired slot_process_round) sample_round))
     = true.
Proof.
  assert (Hr : reachable sample_round).
  { unfold sample_round, sample_open. do 3 apply reach_step.
    apply reach_init. }
  split; [exact Hr|]. split; [reflexivity|].
  destruct (one_round_per_event (at_time 5)
              (TimerFired slot_process_round) sample_round Hr)
    as [_ H].
  apply (H eq_refl).
Defined.

(** X3.  In a state whose stored gesture is none, "0" or "5", as it is
    in every reachable state, every handler arms at most one timer, and
    none but these: 3000 ms to [start_round] (a new game), 15000 ms to
    [auto_process_round] (a new round), 2000 ms to [start_round] or
    [end_game] (the pause behind a settled round), and a delay that is not
    negative to [process_round] (a round put off).  Of these the second
    and the third kind stand behind an [update_ui] that raises:
    [handle_armed] rules them out. *)
Theorem timers_armed e ev s :
  gesture_ok (player_gesture s) ->
  armed_by (handle e ev s) = []
  \/ armed_by (handle e ev s)
     = [ {| msec := 3000; slot := slot_start_round |} ]
  \/ armed_by (handle e ev s)
     = [ {| msec := 15000; slot := slot_auto_process_round |} ]
  \/ armed_by (handle e ev s)
     = [ {| msec := 2000; slot := slot_start_round |} ]
  \/ armed_by (handle e ev s)
     = [ {| msec := 2000; slot := slot_end_game |} ]
  \/ exists ms,
       0 <= ms
       /\ armed_by (handle e ev s)
          = [ {| msec := ms; slot := slot_process_round |} ].
Proof.
  intros Hg.
  assert (Hp : forall s1,
    armed_by (process_round e s1) = []
    \/ armed_by (process_round e s1)
       = [ {| msec := 3000; slot := slot_start_round |} ]
    \/ armed_by (process_round e s1)
       = [ {| msec := 15000; slot := slot_auto_process_round |} ]
    \/ armed_by (process_round e s1)
       = [ {| msec := 2000; slot := slot_start_round |} ]
    \/ armed_by (process_round e s1)
       = [ {| msec := 2000; slot := slot_end_game |} ]
    \/ exists ms,
         0 <= ms
         /\ armed_by (process_round e s1)
            = [ {| msec := ms; slot := slot_process_round |} ]).
  { intros s1. unfold process_round.
    destruct (player_gesture s1) as [pg|]; [|left; reflexivity].
    destruct (player_call s1) as [pc|]; [|left; reflexivity].
    destruct (round_start_time s1) as [start|]; [|left; reflexivity].
    destruct (Qlt_le_dec (now e - start) 1) as [Hlt|Hge].
    - do 5 right. eexists. split; [|reflexivity].
      apply trunc_bounds. lra.
    - destruct (int pg); [|left; reflexivity].
      destruct (int _); [|left; reflexivity].
      rewrite settle_raises. left; reflexivity. }
  destruct ev as [| | |[| | |]|g|text]; cbn [handle].
  - right; left. reflexivity.
  - left; reflexivity.
  - left; reflexivity.
  - left; reflexivity.
  - unfold auto_process_round.
    destruct (negb (GameState_eqb (state s) PLAYING) || round_processed s);
      [left; reflexivity | apply Hp].
  - apply Hp.
  - unfold end_game. destruct (continue_clicked e);
      [right; left; reflexivity | left; reflexivity].
  - destruct (on_gesture_detected_cases e g s) as [[-> _] | [-> _]];
      left; reflexivity.
  - destruct (on_voice_input_cases e text s) as [-> | [-> | ->]];
      [right; left; reflexivity | left; reflexivity | left; reflexivity].
Qed.

Lemma timers_armed_witness :
  gesture_ok (player_gesture sample_round)
  /\ armed_by (handle (at_time 3.75) (TimerFired slot_process_round)
                 sample_round)
     = [ {| msec := 250; slot := slot_process_round |} ].
Proof.
  assert (Hg : gesture_ok (player_gesture sample_round)).
  { right; left; reflexivity. }
  split; [exact Hg|].
  destruct (timers_armed (at_time 3.75) (TimerFired slot_process_round)
              sample_round Hg)
    as [H | [H | [H | [H | [H | (ms & _ & H)]]]]];
    try discriminate H.
  reflexivity.
Defined.

(** X4.  A call that the timeout has to fill in never wins.  When the
    timeout fires on a round that is being played and not yet processed,
    with no call stored and the second over, the round is scored as a
    draw: [score_draws] goes up by one, the other counters and
    [valid_rounds] stay; then the handler raises in [update_ui] and arms
    nothing. *)
Theorem timeout_call_draws e s start :
  reachable s ->
  state s = PLAYING -> round_processed s = false ->
  player_call s = None ->
  round_start_time s = Some start -> (start + 1 <= now e)%Q ->
  (exists s', auto_process_round e s = Raised s')
  /\ armed_by (auto_process_round e s) = []
  /\ score_draws (st (auto_process_round e s)) = score_draws s + 1
  /\ score_player (st (auto_process_round e s)) = score_player s
  /\ score_computer (st (auto_process_round e s)) = score_computer s
  /\ valid_rounds (st (auto_process_round e s)) = valid_rounds s.
Proof.
  intros Hr Hst Hrp Hc Hstart Ht.
  pose proof (reachable_Inv s Hr) as HI.
  pose proof (Inv_auto_fill e s HI) as HI1.
  unfold auto_process_round. rewrite Hst, Hrp.
  cbn [GameState_eqb negb orb].
  destruct (auto_fill_inputs e s) as [Hg1 Hc1]. rewrite Hc in Hc1.
  destruct (auto_fill_keeps e s) as [_ Hst1]. rewrite Hstart in Hst1.
  assert (Hl : ledger (auto_fill e s) = ledger s).
  { unfold auto_fill, ledger.
    destruct (player_gesture s); cbn; rewrite ?Hc; cbn; reflexivity. }
  assert (Hdue : due_now e (auto_fill e s) = true).
  { unfold due_now. rewrite Hg1, Hc1, Hst1.
    destruct (Qlt_le_dec (now e - start) 1); [lra | reflexivity]. }
  destruct (process_round_settles e _ (inv_gesture _ HI1) Hdue)
    as (pg & pc & start' & pv & cv & Hpg & Hpc & _ & _ & Hpv & Hpv05
        & Hcv & Hcv05 & ->).
  rewrite Hc1 in Hpc. injection Hpc as <-.
  pose proof (call_choice (pick_player_call e)) as Hpc15.
  pose proof (call_choice (pick_computer_call e)) as Hcc15.
  assert (Hj : judge (choice 15 call_choices (pick_player_call e))
                 (choice 15 call_choices (pick_computer_call e)) (pv + cv)
               = Draw).
  { unfold judge.
    rewrite (in_15_20_not_total _ pv cv Hpc15 Hpv05 Hcv05).
    rewrite (in_15_20_not_total _ pv cv Hcc15 Hpv05 Hcv05).
    reflexivity. }
  injection Hl as Hsp Hsc Hsd Hv Hm _ _.
  rewrite settle_raises. unfold scored. rewrite Hj. cbn.
  rewrite Hsp, Hsc, Hsd, Hv.
  split; [eexists; reflexivity|]. repeat split.
Qed.

Lemma timeout_call_draws_witness :
  reachable sample_open
  /\ armed_by (auto_process_round (at_time 18) sample_open) = []
  /\ score_draws (st (auto_process_round (at_time 18) sample_open)) = 1
  /\ valid_rounds (st (auto_process_round (at_time 18) sample_open)) = 0.
Proof.
  assert (Hr : reachable sample_open).
  { unfold sample_open. do 2 apply reach_step. apply reach_init. }
  split; [exact Hr|].
  assert (Ht : (3 + 1 <= now (at_time 18))%Q).
  { unfold Qle. cbn. lia. }
  destruct (timeout_call_draws (at_time 18) sample_open 3%Q Hr
              eq_refl eq_refl eq_refl eq_refl Ht)
    as (_ & Ha & Hd & _ & _ & Hv).
  split; [exact Ha|]. split; [exact Hd | exact Hv].
Defined.

(** X5.  The handlers that run into a label that is not there.
    [start_round] resets the round and then always raises, in
    [update_ui], before it arms the timeout: it arms nothing.  A round
    that is due is scored by [process_round], which then raises in
    [update_ui] as well, before it arms the timer of the pause; so the
    only timers [process_round] ever arms are those that put a round
    off, and the only timers any handler arms are those and the three
    seconds before the first round. *)
Theorem missing_labels_raise e s :
  start_round e s = Raised (open_round e s)
  /\ player_gesture (open_round e s) = None
  /\ player_call (open_round e s) = None
  /\ round_processed (open_round e s) = false
  /\ round_start_time (open_round e s) = Some (now e)
  /\ ledger (open_round e s) = ledger s
  /\ (gesture_ok (player_gesture s) -> due_now e s = true ->
      exists s',
        process_round e s = Raised s'
        /\ rounds_scored s' = rounds_scored s + 1
        /\ round_processed s' = true)
  /\ (forall tm,
         In tm (armed_by (process_round e s)) ->
         slot tm = slot_process_round)
  /\ (forall ev tm,
         In tm (armed_by (handle e ev s)) ->
         tm = {| msec := 3000; slot := slot_start_round |}
         \/ slot tm = slot_process_round).
Proof.
  split; [reflexivity|]. split; [reflexivity|]. split; [reflexivity|].
  split; [reflexivity|]. split; [reflexivity|]. split; [reflexivity|].
  split; [|split].
  - intros Hg Hdue.
    destruct (process_round_due e s Hg Hdue)
      as (r & s' & Heq & _ & Hsc & Hrp & _).
    exists s'. auto.
  - intros tm. apply process_round_armed.
  - intros ev tm. apply handle_armed.
Qed.



(** ** Commands by voice *)

Lemma startswith_iff needle :
  forall hay,
    startswith hay needle = true <-> exists post, hay = needle ++ post.
Proof.
  induction needle as [|c needle IH]; intros hay.
  - destruct hay; cbn [startswith];
      (split; [intros _; eexists; reflexivity | reflexivity]).
  - destruct hay as [|d hay]; cbn [startswith].
    + split; [discriminate | intros [post H]; discriminate H].
    + rewrite andb_true_iff, N.eqb_eq, IH. split.
      * intros [-> [post ->]]. exists post. reflexivity.
      * intros [post H]. injection H as -> ->. split; [reflexivity|].
        exists post. reflexivity.
Qed.

Lemma contains_iff needle :
  forall hay, contains needle hay = true <-> occurs_in needle hay.
Proof.
  unfold occurs_in.
  induction hay as [|d hay IH]; cbn [contains]; rewrite orb_true_iff.
  - rewrite startswith_iff. split.
    + intros [[post H] | H]; [|discriminate H].
      exists [], post. exact H.
    + intros (pre & post & H). left.
      destruct pre as [|x pre]; [|discriminate H].
      exists post. exact H.
  - rewrite startswith_iff, IH. split.
    + intros [[post H] | (pre & post & H)].
      * exists [], post. exact H.
      * exists (d :: pre), post. cbn. now rewrite H.
    + intros (pre & post & H). destruct pre as [|x pre].
      * left. exists post. exact H.
      * right. injection H as _ H. exists pre, post. exact H.
Qed.

(** X9.  What an utterance is taken for.  While the window waits, a text
    in which the start word or "15 15" occurs starts the game, whatever
    else it holds.  In every other case a text in which the exit phrase
    occurs closes the window and changes nothing, even if it holds a
    number.  In every other case the handler raises on
    [self.voice_label], which nothing creates, before it looks for a
    number: the state is as it was and no call is stored. *)
Theorem voice_commands e s text :
  (state s = WAITING
   /\ (occurs_in zh_kaishi text \/ occurs_in (py "15 15") text) ->
   on_voice_input e text s = start_game s)
  /\ (~ (state s = WAITING
         /\ (occurs_in zh_kaishi text \/ occurs_in (py "15 15") text)) ->
      (occurs_in zh_tuichu_youxi text ->
       on_voice_input e text s = Closed s)
      /\ (~ occurs_in zh_tuichu_youxi text ->
          on_voice_input e text s = Raised s)).
Proof.
  assert (Hw : GameState_eqb (state s) WAITING
               && (contains zh_kaishi text || contains (py "15 15") text)
               = true
               <-> state s = WAITING
                   /\ (occurs_in zh_kaishi text
                       \/ occurs_in (py "15 15") text)).
  { rewrite andb_true_iff, orb_true_iff, !contains_iff.
    destruct (state s); cbn; intuition discriminate. }
  unfold on_voice_input.
  destruct (GameState_eqb (state s) WAITING && _) eqn:Ew.
  - split; [reflexivity|]. intros Hn. contradiction Hn. apply Hw.
    reflexivity.
  - split.
    { intros H. apply Hw in H. discriminate H. }
    intros _. split.
    + intros Hex. apply contains_iff in Hex. rewrite Hex. reflexivity.
    + intros Hex.
      destruct (contains zh_tuichu_youxi text) eqn:Ec;
        [contradiction Hex; apply contains_iff, Ec | reflexivity].
Qed.

(** ** Further properties of the number extractor *)

Lemma scan_cons c rest :
  scan (c :: rest)
  = match accepted_value c with
    | Some n => Some n
    | None => scan rest
    end.
Proof.
  cbn [scan]. unfold accepted_value.
  destruct (cn_num_get cn_num c) as [num|]; [|reflexivity].
  destruct (in_call_range num); reflexivity.
Qed.

Lemma scan_app a b :
  scan (a ++ b)
  = match scan a with
    | Some n => Some n
    | None => scan b
    end.
Proof.
  induction a as [|c a IH]; [reflexivity|].
  rewrite <- app_comm_cons, !scan_cons.
  destruct (accepted_value c); [reflexivity | exact IH].
Qed.

(** X10.  The first part of an utterance decides: the number extracted
    from two texts put together is the one extracted from the first, and
    that of the second only when the first gives none. *)
Theorem extract_number_app a b :
  extract_number (a ++ b)
  = match extract_number a with
    | Some n => Some n
    | None => extract_number b
    end.
Proof.
  unfold extract_number, normalize, replace.
  rewrite !map_app. apply scan_app.
Qed.

Lemma accepted_value_table c n :
  accepted_value c = Some n <-> In (c, n) call_characters.
Proof.
  split.
  - unfold accepted_value, cn_num. cbn [cn_num_get].
    repeat match goal with
    | |- context [N.eqb c ?k] =>
        destruct (N.eqb_spec c k);
        [ subst c; vm_compute; intros H;
          first [ discriminate H
                | injection H as <-; tauto ]
        | ]
    end.
    discriminate.
  - unfold call_characters. cbn [In].
    intros H.
    repeat (destruct H as [H | H]; [injection H as <- <-; reflexivity|]).
    contradiction.
Qed.

Lemma accepted_value_normalize c :
  accepted_value
    ((fun c => if N.eqb c zh_liang then zh_er else c)
       ((fun c => if N.eqb c zh_ling then ch_0 else c) c))
  = accepted_value c.
Proof.
  cbv beta.
  destruct (N.eqb_spec c zh_ling) as [-> | Hl]; [reflexivity|].
  destruct (N.eqb_spec c zh_liang) as [-> | Hn]; reflexivity.
Qed.

Lemma scan_normalize text : scan (normalize text) = scan text.
Proof.
  unfold normalize, replace. rewrite map_map.
  induction text as [|c text IH]; [reflexivity|].
  cbn [map]. rewrite !scan_cons, IH, accepted_value_normalize.
  reflexivity.
Qed.

(** X11.  Which characters are a call.  The two replacements made before
    the scan change no result, and on the text as it is spoken the
    extractor answers [n] exactly when the first of the thirteen call
    characters (零 一 二 三 四 五 两 and the digits 0 to 5) that occurs
    in it has the value [n]; it answers no call exactly when none of them
    occurs. *)
Theorem call_characters_rule text :
  extract_number text = scan text
  /\ (forall n,
         extract_number text = Some n
         <-> exists pre c post,
               text = pre ++ c :: post
               /\ Forall (fun x => ~ In x (map fst call_characters)) pre
               /\ In (c, n) call_characters)
  /\ (extract_number text = None
      <-> Forall (fun x => ~ In x (map fst call_characters)) text).
Proof.
  assert (Hno : forall x,
             accepted_value x = None
             <-> ~ In x (map fst call_characters)).
  { intros x. split.
    - intros Hx Hin. apply in_map_iff in Hin.
      destruct Hin as ([c n] & <- & Hin).
      apply accepted_value_table in Hin. cbn in Hx. congruence.
    - intros Hx. destruct (accepted_value x) as [n|] eqn:Ex; [|reflexivity].
      contradiction Hx. apply accepted_value_table in Ex.
      apply in_map_iff. exists (x, n). auto. }
  assert (Hall : forall l,
             Forall (fun x => accepted_value x = None) l
             <-> Forall (fun x => ~ In x (map fst call_characters)) l).
  { intros l. rewrite !Forall_forall. split; intros H x Hx;
      apply Hno, H, Hx. }
  unfold extract_number. rewrite scan_normalize.
  split; [reflexivity|].
  pose proof (scan_rule text) as Hs. split.
  - intros n. split.
    + intros Hn. rewrite Hn in Hs.
      destruct Hs as (pre & c & post & -> & Hpre & Hc).
      exists pre, c, post. split; [reflexivity|].
      split; [apply Hall, Hpre | apply accepted_value_table, Hc].
    + intros (pre & c & post & -> & Hpre & Hc).
      apply Hall in Hpre. apply accepted_value_table in Hc.
      clear Hs. induction pre as [|x pre IH]; cbn [app].
      * rewrite scan_cons, Hc. reflexivity.
      * inversion Hpre as [|? ? Hx Hpre']; subst.
        rewrite scan_cons, Hx. apply IH, Hpre'.
  - split.
    + intros Hn. rewrite Hn in Hs. apply Hall, Hs.
    + intros Hf. apply Hall in Hf.
      clear Hs. induction Hf as [|x l Hx _ IH]; [reflexivity|].
      rewrite scan_cons, Hx. exact IH.
Qed.

(** ** The texts handed to the callback *)

Lemma lstrip_split s :
  exists pre,
    s = pre ++ AudioLoop.lstrip s
    /\ Forall (fun c => AudioLoop.isspace c = true) pre
    /\ match AudioLoop.lstrip s with
       | c :: _ => AudioLoop.isspace c = false
       | [] => True
       end.
Proof.
  induction s as [|c s (pre & Hs & Hpre & Hhd)]; cbn [AudioLoop.lstrip].
  - exists []. repeat split. constructor.
  - destruct (AudioLoop.isspace c) eqn:Ec.
    + exists (c :: pre). split; [cbn; congruence|].
      split; [constructor; assumption | exact Hhd].
    + exists []. repeat split; [constructor | exact Ec].
Qed.

(** [strip] takes the whitespace off both ends, and nothing else. *)
Lemma strip_split raw :
  exists l r,
    raw = l ++ AudioLoop.strip raw ++ r
    /\ Forall (fun c => AudioLoop.isspace c = true) l
    /\ Forall (fun c => AudioLoop.isspace c = true) r
    /\ (AudioLoop.strip raw <> [] ->
        AudioLoop.isspace (hd 0%N (AudioLoop.strip raw)) = false
        /\ AudioLoop.isspace (last (AudioLoop.strip raw) 0%N) = false).
Proof.
  unfold AudioLoop.strip.
  destruct (lstrip_split raw) as (l & Hraw & Hl & Hhd).
  destruct (lstrip_split (rev (AudioLoop.lstrip raw))) as (r & Hrev & Hr & Hlast).
  set (u := AudioLoop.lstrip raw) in *.
  set (v := AudioLoop.lstrip (rev u)) in *.
  assert (Hu : u = rev v ++ rev r).
  { rewrite <- (rev_involutive u), Hrev, rev_app_distr. reflexivity. }
  exists l, (rev r). split; [rewrite <- Hu; exact Hraw|].
  split; [exact Hl|].
  split; [apply Forall_rev, Hr|].
  intros Hne. split.
  - rewrite Hu in Hhd. destruct (rev v) as [|c t]; [contradiction|].
    exact Hhd.
  - destruct v as [|c t]; [contradiction Hne; reflexivity|].
    cbn [rev]. rewrite last_last. exact Hlast.
Qed.

Lemma last_shift {A : Type} (l : list A) (a d : A) :
  last (a :: l) d = last l a.
Proof.
  revert a d. induction l as [|b l IH]; intros a d; [reflexivity|].
  change (last (a :: b :: l) d) with (last (b :: l) d).
  rewrite (IH b d), (IH b a). reflexivity.
Qed.

(** X12.  What reaches the callback.  Every text the loop hands on is a
    recognised text with the whitespace taken off both ends and nothing
    else, is not empty, and begins and ends with a character that is not
    whitespace; no text is handed on twice in a row, the first one
    differs from what [last_text] held before, and [last_text] ends as
    the last text handed on. *)
Theorem voice_events_distinct items :
  forall last_text,
    Forall (fun t =>
              t <> []
              /\ AudioLoop.isspace (hd 0%N t) = false
              /\ AudioLoop.isspace (last t 0%N) = false
              /\ exists raw l r,
                   In (AudioLoop.Audio (Some raw)) items
                   /\ raw = l ++ t ++ r
                   /\ Forall (fun c => AudioLoop.isspace c = true) l
                   /\ Forall (fun c => AudioLoop.isspace c = true) r)
      (fst (AudioLoop.process_audio items last_text))
    /\ no_repeat (last_text
                  :: fst (AudioLoop.process_audio items last_text))
    /\ snd (AudioLoop.process_audio items last_text)
       = last (fst (AudioLoop.process_audio items last_text)) last_text.
Proof.
  induction items as [|item items IH]; intros last_text.
  - cbn. repeat split. constructor.
  - assert (Hskip :
      Forall (fun t =>
                t <> []
                /\ AudioLoop.isspace (hd 0%N t) = false
                /\ AudioLoop.isspace (last t 0%N) = false
                /\ exists raw l r,
                     In (AudioLoop.Audio (Some raw)) (item :: items)
                     /\ raw = l ++ t ++ r
                     /\ Forall (fun c => AudioLoop.isspace c = true) l
                     /\ Forall (fun c => AudioLoop.isspace c = true) r)
        (fst (AudioLoop.process_audio items last_text))
      /\ no_repeat (last_text
                    :: fst (AudioLoop.process_audio items last_text))
      /\ snd (AudioLoop.process_audio items last_text)
         = last (fst (AudioLoop.process_audio items last_text)) last_text).
    { destruct (IH last_text) as (Hf & Hn & Hl).
      split; [|split; assumption].
      eapply Forall_impl; [|exact Hf].
      intros t (H1 & H2 & H3 & raw & l & r & Hin & Hrest).
      repeat split; auto. exists raw, l, r. split; [right; exact Hin|].
      exact Hrest. }
    destruct item as [| |[raw|]]; cbn [AudioLoop.process_audio].
    + cbn. repeat split. constructor.
    + exact Hskip.
    + destruct (nonempty raw); [|exact Hskip].
      destruct (PyStr.eqb (AudioLoop.strip raw) last_text) eqn:Eeq;
        cbn [negb andb]; [exact Hskip|].
      destruct (0 <? Z.of_nat (List.length (AudioLoop.strip raw))) eqn:Elen;
        [|exact Hskip].
      assert (Hne : AudioLoop.strip raw <> []).
      { intros H. rewrite H in Elen. discriminate Elen. }
      assert (Hdiff : last_text <> AudioLoop.strip raw).
      { intros H. symmetry in H. apply pystr_eqb_eq in H.
        rewrite H in Eeq. discriminate Eeq. }
      destruct (IH (AudioLoop.strip raw)) as (Hf & Hn & Hl).
      destruct (AudioLoop.process_audio items (AudioLoop.strip raw))
        as [calls final].
      cbn [fst snd] in *.
      destruct (strip_split raw) as (l & r & Hraw & Hsl & Hsr & Hends).
      destruct (Hends Hne) as [Hhd Hlast].
      split; [|split].
      * constructor.
        -- repeat split; auto. exists raw, l, r.
           split; [left; reflexivity|]. auto.
        -- eapply Forall_impl; [|exact Hf].
           intros t (H1 & H2 & H3 & raw' & l' & r' & Hin & Hrest).
           repeat split; auto. exists raw', l', r'.
           split; [right; exact Hin | exact Hrest].
      * cbn [no_repeat]. split; [exact Hdiff | exact Hn].
      * rewrite Hl. symmetry. apply last_shift.
    + exact Hskip.
Qed.

(** ** Further properties of [process_frame] *)

Lemma detect_length gestures hands :
  forall idx acc l,
    detect gestures idx hands acc = Some l ->
    (List.length l <= List.length acc + List.length hands)%nat.
Proof.
  induction hands as [|[lm hd] rest IH]; intros idx acc l; cbn [detect].
  - intros [= <-]. lia.
  - destruct hd as [|h hd]; [discriminate|].
    cbn [List.length].
    assert (Hskip : detect gestures (S idx) rest acc = Some l ->
                    (List.length l
                     <= List.length acc + S (List.length rest))%nat).
    { intros H. apply IH in H. lia. }
    destruct (nonempty gestures && (idx <? List.length gestures)%nat);
      [|exact Hskip].
    destruct (nth_error gestures idx) as [[|top tl]|]; try discriminate.
    destruct (Qle_bool GestureRecognizer.GESTURE_CONFIDENCE_THRESHOLD
                (score top)); [|exact Hskip].
    destruct (dict_get GestureRecognizer.GESTURE_NAME_MAPPING
                (category_name top)) as [g|]; [|exact Hskip].
    destruct (nonempty g); [|exact Hskip].
    destruct (int g) as [n|]; [|discriminate].
    intros H. apply IH in H. rewrite length_app in H. cbn in H. lia.
Qed.

(** X13.  With at most two hands in the picture, the setting of the
    recogniser, a gesture that is emitted is "0", "5" or "10". *)
Theorem two_hands_emit r g :
  (List.length (hand_landmarks r) <= 2)%nat ->
  emitted r = Some g ->
  g = py "0" \/ g = py "5" \/ g = py "10".
Proof.
  intros Hlen. unfold emitted, process_frame.
  destruct (nonempty (hand_landmarks r)); [|discriminate].
  destruct (detect _ _ _ _) as [nums|] eqn:Ed; [|discriminate].
  pose proof (detect_length _ _ _ _ _ Ed) as Hl.
  pose proof (detect_values _ _ _ _ _ Ed (Forall_nil _)) as Hv.
  rewrite length_combine in Hl. cbn [List.length] in Hl.
  destruct nums as [|a [|b [|c nums]]]; cbn [nonempty];
    try discriminate; intros [= <-].
  - inversion Hv as [|? ? Ha _]; subst.
    destruct Ha as [-> | ->]; auto.
  - inversion Hv as [|? ? Ha Hv']; subst.
    inversion Hv' as [|? ? Hb _]; subst.
    destruct Ha as [-> | ->], Hb as [-> | ->]; auto.
  - cbn [List.length] in Hl. lia.
Qed.

Lemma two_hands_emit_witness :
  (List.length (hand_landmarks two_palms) <= 2)%nat
  /\ emitted two_palms = Some (py "10").
Proof.
  split; [cbn; lia|].
  destruct (two_hands_emit two_palms (py "10") ltac:(cbn; lia) eq_refl)
    as [H | [H | H]]; try discriminate H.
  reflexivity.
Defined.

Lemma detect_none_counted gestures hands :
  Forall (fun g => counted g = false) gestures ->
  forall idx acc l,
    detect gestures idx hands acc = Some l -> l = acc.
Proof.
  intros Hall.
  induction hands as [|[lm hd] rest IH]; intros idx acc l; cbn [detect].
  - intros [= <-]. reflexivity.
  - destruct hd as [|h hd]; [discriminate|].
    destruct (nonempty gestures && (idx <? List.length gestures)%nat);
      [|apply IH].
    destruct (nth_error gestures idx) as [[|top tl]|] eqn:En;
      try discriminate.
    apply nth_error_In in En.
    rewrite Forall_forall in Hall. specialize (Hall _ En).
    unfold counted in Hall.
    destruct (Qle_bool GestureRecognizer.GESTURE_CONFIDENCE_THRESHOLD
                (score top)); [|apply IH].
    destruct (dict_get GestureRecognizer.GESTURE_NAME_MAPPING
                (category_name top)) as [g|]; [discriminate Hall|].
    apply IH.
Qed.

(** X14.  When nothing is emitted.  A frame without hands emits no
    gesture, and so does a frame in which no hand's top gesture counts,
    that is, none is a closed fist or an open palm recognised with a
    score of at least 0.5. *)
Theorem no_gesture_emitted r :
  hand_landmarks r = []
  \/ Forall (fun g => counted g = false) (gestures r) ->
  emitted r = None.
Proof.
  unfold emitted, process_frame. intros [H | H].
  - rewrite H. reflexivity.
  - destruct (nonempty (hand_landmarks r)); [|reflexivity].
    destruct (detect _ _ _ _) as [nums|] eqn:Ed; [|reflexivity].
    apply (detect_none_counted _ _ H) in Ed. subst nums. reflexivity.
Qed.

Lemma no_gesture_emitted_witness :
  counted [ {| category_name := py "Open_Palm"; score := 0.4 |} ] = false
  /\ emitted {|
       hand_landmarks := [ [] ];
       handedness := [ [ {| category_name := py "Left"; score := 1 |} ] ];
       gestures := [ [ {| category_name := py "Open_Palm";
                          score := 0.4 |} ] ]
     |} = None.
Proof.
  split; [reflexivity|].
  apply no_gesture_emitted. right.
  constructor; [reflexivity | constructor].
Defined.

(** ** hand_gesture.py against the labels of the game *)

Ltac label_case cat key :=
  destruct (list_eq_dec N.eq_dec cat key) as [-> | ?].

(** X15.  The names [hand_gesture.py] displays are the labels the game
    accepts.  The handler of the game accepts the displayed name of a
    category exactly for a closed fist or an open palm with a score of at
    least 0.1 (and for the two labels themselves, which pass unchanged),
    with the values "0" and "5"; and on every category other than the two
    labels, from a score of 0.1 on, the game's [mapping] after the
    display name gives what [GESTURE_NAME_MAPPING] of
    [gesture_recognizer.py] gives on the category itself. *)
Theorem display_name_is_label cat score :
  (forall v,
      dict_get mapping (HandGesture.display_gesture cat score) = Some v
      <-> (cat = py "Closed_Fist" /\ (0.1 <= score)%Q /\ v = py "0")
          \/ (cat = py "Open_Palm" /\ (0.1 <= score)%Q /\ v = py "5")
          \/ (cat = py "Fist" /\ v = py "0")
          \/ (cat = py "Palm" /\ v = py "5"))
  /\ (cat <> py "Fist" -> cat <> py "Palm" -> (0.1 <= score)%Q ->
      dict_get mapping (HandGesture.display_gesture cat score)
      = dict_get GestureRecognizer.GESTURE_NAME_MAPPING cat).
Proof.
  unfold HandGesture.display_gesture, HandGesture.filter_gesture.
  label_case cat (py "Closed_Fist");
    [|label_case cat (py "Open_Palm");
      [|label_case cat (py "Pointing_Up");
        [|label_case cat (py "Thumb_Down");
          [|label_case cat (py "Thumb_Up");
            [|label_case cat (py "Victory");
              [|label_case cat (py "ILoveYou");
                [|label_case cat (py "None");
                  [|label_case cat (py "Fist");
                    [|label_case cat (py "Palm")]]]]]]]]].
  11: {
    unfold HandGesture.GESTURE_CONFIDENCE_THRESHOLD,
      HandGesture.GESTURE_NAME_MAPPING,
      GestureRecognizer.GESTURE_NAME_MAPPING, mapping.
    do 3 (cbn [dict_get]; rewrite ?(pystr_eqb_neq cat) by assumption).
    split; [|reflexivity].
    intros v. split; [discriminate|].
    intros [(H & _) | [(H & _) | [(H & _) | (H & _)]]]; contradiction. }
  all: match goal with
       | |- context [dict_get HandGesture.GESTURE_CONFIDENCE_THRESHOLD ?k] =>
           let r := eval vm_compute in
                      (dict_get HandGesture.GESTURE_CONFIDENCE_THRESHOLD k) in
           change (dict_get HandGesture.GESTURE_CONFIDENCE_THRESHOLD k) with r
       end;
    cbv beta iota;
    try match goal with
        | |- context [Qlt_le_dec ?x ?t] =>
            destruct (Qlt_le_dec x t) as [Hlt | Hle]
        end;
    (split;
     [ intros v; split;
       [ vm_compute; intros H; try discriminate H;
         injection H as <-;
         first [ solve [left; repeat split; assumption]
               | solve [right; left; repeat split; assumption]
               | solve [right; right; left; split; reflexivity]
               | solve [right; right; right; split; reflexivity] ]
       | intros [(H & Hs & ->) | [(H & Hs & ->) | [(H & ->) | (H & ->)]]];
         try discriminate H; try reflexivity;
         exfalso; apply (Qlt_not_le _ _ Hlt Hs) ]
     | intros HF HP Hs;
       first [ contradiction HF; reflexivity
             | contradiction HP; reflexivity
             | reflexivity
             | exfalso; apply (Qlt_not_le _ _ Hlt Hs) ] ]).
Qed.

(** ** The retries of the camera *)

Lemma retry_loop_spec works :
  forall fuel c,
    (Z.to_nat (CameraThread.max_retries c - CameraThread.retry_count c)
     <= fuel)%nat ->
    exists ok c',
      CameraThread.retry_loop fuel works c = Some (ok, c')
      /\ CameraThread.max_retries c' = CameraThread.max_retries c
      /\ CameraThread.retry_count c <= CameraThread.retry_count c'
      /\ (CameraThread.retry_count c <= CameraThread.max_retries c ->
          CameraThread.retry_count c' <= CameraThread.max_retries c)
      /\ Z.of_nat (CameraThread.opens c')
         = Z.of_nat (CameraThread.opens c)
           + (CameraThread.retry_count c' - CameraThread.retry_count c)
           + (if ok then 1 else 0)
      /\ (ok = true
          <-> CameraThread.retry_count c' < CameraThread.max_retries c)
      /\ (ok = true -> works (pred (CameraThread.opens c')) = true)
      /\ (forall k,
             (CameraThread.opens c <= k)%nat ->
             Z.of_nat k
             < Z.of_nat (CameraThread.opens c)
               + (CameraThread.retry_count c'
                  - CameraThread.retry_count c) ->
             works k = false).
Proof.
  induction fuel as [|fuel IH]; intros c Hfuel; cbn [CameraThread.retry_loop].
  - destruct (Z.ltb_spec (CameraThread.retry_count c)
                (CameraThread.max_retries c)) as [Hlt | Hge]; [lia|].
    exists false, c.
    repeat split; try lia; try discriminate; try (intros; lia).
  - destruct (Z.ltb_spec (CameraThread.retry_count c)
                (CameraThread.max_retries c)) as [Hlt | Hge].
    + destruct (works (CameraThread.opens c)) eqn:Ew.
      * do 2 eexists. split; [reflexivity|].
        cbn [CameraThread.retry_count CameraThread.max_retries
               CameraThread.opens pred].
        repeat split; try lia; auto; try (intros; lia).
      * destruct (IH {| CameraThread.retry_count :=
                          CameraThread.retry_count c + 1;
                        CameraThread.max_retries :=
                          CameraThread.max_retries c;
                        CameraThread.opens := S (CameraThread.opens c) |})
          as (ok & c' & Heq & Hmax & Hcnt & Hbound & Hopens & Hok & Hlast
              & Hfail).
        { cbn [CameraThread.retry_count CameraThread.max_retries
                 CameraThread.opens]. lia. }
        cbn [CameraThread.retry_count CameraThread.max_retries
               CameraThread.opens] in Hmax, Hcnt, Hbound, Hopens, Hok, Hfail.
        exists ok, c'. split; [exact Heq|].
        split; [exact Hmax|]. split; [lia|].
        split; [intros _; apply Hbound; lia|].
        split; [lia|]. split; [exact Hok|]. split; [exact Hlast|].
        intros k Hk Hk'.
        destruct (Nat.eq_dec k (CameraThread.opens c)) as [-> | Hne];
          [exact Ew|].
        apply Hfail; lia.
    + exists false, c.
      repeat split; try lia; try discriminate; try (intros; lia).
Qed.

(** X16.  The camera is retried within a budget that is never refilled.
    [initialize_camera] always returns; it keeps [max_retries], never
    lowers [retry_count] and never takes it past [max_retries]; it answers
    [True] exactly when it ends below the budget, and then the last
    attempt was the one that worked; every attempt before that failed,
    and each failure is counted.  A call that finds the budget used up
    answers [False] without trying the camera at all, and so does every
    call after a [False]. *)
Theorem camera_retry_budget works c :
  exists ok c',
    CameraThread.initialize_camera works c = Some (ok, c')
    /\ CameraThread.max_retries c' = CameraThread.max_retries c
    /\ CameraThread.retry_count c <= CameraThread.retry_count c'
    /\ (CameraThread.retry_count c <= CameraThread.max_retries c ->
        CameraThread.retry_count c' <= CameraThread.max_retries c)
    /\ Z.of_nat (CameraThread.opens c')
       = Z.of_nat (CameraThread.opens c)
         + (CameraThread.retry_count c' - CameraThread.retry_count c)
         + (if ok then 1 else 0)
    /\ (ok = true
        <-> CameraThread.retry_count c' < CameraThread.max_retries c)
    /\ (ok = true -> works (pred (CameraThread.opens c')) = true)
    /\ (forall k,
           (CameraThread.opens c <= k)%nat ->
           Z.of_nat k
           < Z.of_nat (CameraThread.opens c)
             + (CameraThread.retry_count c' - CameraThread.retry_count c) ->
           works k = false)
    /\ (CameraThread.max_retries c <= CameraThread.retry_count c ->
        ok = false /\ c' = c)
    /\ (ok = false ->
        forall works',
          CameraThread.initialize_camera works' c' = Some (false, c')).
Proof.
  destruct (retry_loop_spec works _ c (Nat.le_refl _))
    as (ok & c' & Heq & Hmax & Hcnt & Hbound & Hopens & Hok & Hlast & Hfail).
  exists ok, c'. split; [exact Heq|].
  split; [exact Hmax|]. split; [exact Hcnt|]. split; [exact Hbound|].
  split; [exact Hopens|]. split; [exact Hok|]. split; [exact Hlast|].
  split; [exact Hfail|]. split.
  - intros Hge. unfold CameraThread.initialize_camera in Heq.
    replace (Z.to_nat _) with 0%nat in Heq by lia.
    cbn [CameraThread.retry_loop] in Heq.
    destruct (Z.ltb_spec (CameraThread.retry_count c)
                (CameraThread.max_retries c)); [lia|].
    injection Heq as <- <-. split; reflexivity.
  - intros -> works'.
    assert (Hge : CameraThread.max_retries c'
                  <= CameraThread.retry_count c').
    { destruct (Z.lt_ge_cases (CameraThread.retry_count c')
                  (CameraThread.max_retries c)) as [Hlt | Hge];
        [apply Hok in Hlt; discriminate Hlt | lia]. }
    unfold CameraThread.initialize_camera.
    replace (Z.to_nat _) with 0%nat by lia.
    cbn [CameraThread.retry_loop].
    destruct (Z.ltb_spec (CameraThread.retry_count c')
                (CameraThread.max_retries c')); [lia | reflexivity].
Qed.

(** ** Reaction times and the report *)







(** ** Which rounds can be won *)




